(** * AVLtree.cpp: a shallow embedding of [AVLTree<T>] and its properties

    The C++ class keeps a binary search tree of heap-allocated [Node]s, each
    exclusively owned by its parent, with a cached [int height] per node.
    Ownership is strictly tree shaped (no sharing, no back pointers), so a
    [Node*] is modelled by an inductive tree whose [Leaf] is [nullptr].

    Every private helper that dereferences a pointer without testing it
    ([updateHeight], [rotateRight], [rotateLeft], [balance], [removeMin] and
    the use of [findMin]'s result in [remove]) returns in [option]: [None]
    stands for the dereference of [nullptr].

    [int] is modelled by [Z].  The cached height of a tree that satisfies the
    class invariant is its number of levels, which is at most its number of
    nodes (lemmas [avl_getHeight_depth] and [depth_le_size]), so that [int]
    arithmetic on heights agrees with [Z] arithmetic for every tree that
    fits in memory. *)

From Stdlib Require Import ZArith Lia Reals Lra Ascii.
From stdpp Require Import base tactics option list numbers sorting strings pretty.

#[local] Open Scope Z_scope.

(** ** The element type: [T] with [operator<] *)

(** The template parameter [T] only needs [operator<]; the code derives
    equality as "neither is less than the other". *)
Class Ordered (T : Type) := {
  less : T → T → bool;
  less_irrefl : ∀ x, less x x = false;
  less_trans : ∀ x y z, less x y = true → less y z = true → less x z = true;
  less_total : ∀ x y, less x y = false → less y x = false → x = y
}.

#[global] Program Instance Z_Ordered : Ordered Z := {| less := Z.ltb |}.
Next Obligation. intros x. apply Z.ltb_irrefl. Qed.
Next Obligation. intros x y z. rewrite !Z.ltb_lt. lia. Qed.
Next Obligation. intros x y. rewrite !Z.ltb_ge. lia. Qed.

(** ** Nodes *)

(** [struct Node { T value; Node* left; Node* right; int height; }] *)
Inductive tree (T : Type) : Type :=
  | Leaf : tree T
  | Node (value : T) (left right : tree T) (height : Z) : tree T.
Arguments Leaf {T}.
Arguments Node {T} value left right height.

Section AVLTree.
Context {T : Type} `{Ordered T}.

Notation "x ≺ y" := (less x y = true) (at level 70, no associativity).

(** [new Node(val)]: no children, height 1. *)
Definition newNode (val : T) : tree T := Node val Leaf Leaf 1.

(** ** Height and balance accessors *)

Definition getHeight (node : tree T) : Z :=
  match node with
  | Leaf => 0
  | Node _ _ _ h => h
  end.

Definition updateHeight (node : tree T) : option (tree T) :=
  match node with
  | Leaf => None
  | Node v l r _ => Some (Node v l r (1 + Z.max (getHeight l) (getHeight r)))
  end.

Definition getBalance (node : tree T) : Z :=
  match node with
  | Leaf => 0
  | Node _ l r _ => getHeight l - getHeight r
  end.

(** ** Rotations *)

Definition rotateRight (y : tree T) : option (tree T) :=
  match y with
  | Leaf => None
  | Node yv x yr yh =>
      match x with
      | Leaf => None
      | Node xv xl xr xh =>
          y' ← updateHeight (Node yv xr yr yh);
          updateHeight (Node xv xl y' xh)
      end
  end.

Definition rotateLeft (x : tree T) : option (tree T) :=
  match x with
  | Leaf => None
  | Node xv xl y xh =>
      match y with
      | Leaf => None
      | Node yv yl yr yh =>
          x' ← updateHeight (Node xv xl yl xh);
          updateHeight (Node yv x' yr yh)
      end
  end.

(** ** Rebalancing *)

Definition balance (node : tree T) : option (tree T) :=
  node ← updateHeight node;
  let balanceFactor := getBalance node in
  match node with
  | Leaf => None
  | Node v l r h =>
      if 1 <? balanceFactor then
        l' ← (if getBalance l <? 0 then rotateLeft l else Some l);
        rotateRight (Node v l' r h)
      else if balanceFactor <? -1 then
        r' ← (if 0 <? getBalance r then rotateRight r else Some r);
        rotateLeft (Node v l r' h)
      else Some node
  end.

(** ** Structural operations *)

Fixpoint insert (node : tree T) (value : T) : option (tree T) :=
  match node with
  | Leaf => Some (newNode value)
  | Node v l r h =>
      if less value v then
        l' ← insert l value; balance (Node v l' r h)
      else if less v value then
        r' ← insert r value; balance (Node v l r' h)
      else Some node
  end.

(** [findMin] walks left while it can; on [nullptr] it returns [nullptr]. *)
Fixpoint findMin (node : tree T) : tree T :=
  match node with
  | Leaf => Leaf
  | Node _ Leaf _ _ => node
  | Node _ l _ _ => findMin l
  end.

Fixpoint removeMin (node : tree T) : option (tree T) :=
  match node with
  | Leaf => None
  | Node _ Leaf r _ => Some r
  | Node v l r h => l' ← removeMin l; balance (Node v l' r h)
  end.

(** In the matching case the node [min] found by [findMin] is the one that
    [removeMin] unlinks from [right]; it keeps its value and its stale cached
    height, receives the two new children, and is handed to [balance]. *)
Fixpoint remove (node : tree T) (value : T) : option (tree T) :=
  match node with
  | Leaf => Some Leaf
  | Node v l r h =>
      if less value v then
        l' ← remove l value; balance (Node v l' r h)
      else if less v value then
        r' ← remove r value; balance (Node v l r' h)
      else
        match r with
        | Leaf => Some l
        | Node _ _ _ _ =>
            let min := findMin r in
            r' ← removeMin r;
            match min with
            | Leaf => None
            | Node mv _ _ mh => balance (Node mv l r' mh)
            end
        end
  end.

(** ** Queries and traversals *)

(** The [while] loop of [contains] follows one child pointer per iteration,
    so it is a structural recursion on the tree below [root]. *)
Fixpoint contains (root : tree T) (value : T) : bool :=
  match root with
  | Leaf => false
  | Node v l r _ =>
      if less value v then contains l value
      else if less v value then contains r value
      else true
  end.

Definition empty (root : tree T) : bool :=
  match root with Leaf => true | Node _ _ _ _ => false end.

Fixpoint inOrder (node : tree T) (result : list T) : list T :=
  match node with
  | Leaf => result
  | Node v l r _ => inOrder r (inOrder l result ++ [v])
  end.

Definition inOrderTraversal (root : tree T) : list T := inOrder root [].

Fixpoint preOrder (node : tree T) (result : list T) : list T :=
  match node with
  | Leaf => result
  | Node v l r _ => preOrder r (preOrder l (result ++ [v]))
  end.

Fixpoint postOrder (node : tree T) (result : list T) : list T :=
  match node with
  | Leaf => result
  | Node v l r _ => postOrder r (postOrder l result) ++ [v]
  end.

Definition preOrderTraversal (root : tree T) : list T := preOrder root [].

Definition postOrderTraversal (root : tree T) : list T := postOrder root [].

(** ** The public interface: a tree object is its [root] pointer *)

Inductive call : Type :=
  | Insert (value : T)
  | Remove (value : T).

Definition perform (root : tree T) (c : call) : option (tree T) :=
  match c with
  | Insert v => insert root v
  | Remove v => remove root v
  end.

(** Runs the calls from left to right, starting from [root]. *)
Fixpoint run (calls : list call) (root : tree T) : option (tree T) :=
  match calls with
  | [] => Some root
  | c :: calls => root' ← perform root c; run calls root'
  end.

Definition insertAll (values : list T) (root : tree T) : option (tree T) :=
  run (Insert <$> values) root.

End AVLTree.

(** ** The diagnostic printer *)

(** [printTree] and [print] write to [std::cout]; the output is modelled as
    the list of the texts written, each one ended by [std::endl] or by the
    newline of a literal; [written] is the character sequence that reaches
    the stream.  [show] is [operator<<] on the element type; the two [int]s
    of a text are written in decimal.  A text is one line of the output
    when it holds no line break itself, which depends on [show]. *)
Section Printing.
Context {T : Type} (show : T → string).



End Printing.




(** ** The data-model invariants *)

Section Invariants.
Context {T : Type} `{Ordered T}.

Notation "x ≺ y" := (less x y = true) (at level 70, no associativity).

(** The values of a subtree, left to right. *)
Fixpoint elements (t : tree T) : list T :=
  match t with
  | Leaf => []
  | Node v l r _ => elements l ++ v :: elements r
  end.

(** Number of nodes and number of levels of a subtree. *)
Fixpoint size (t : tree T) : nat :=
  match t with
  | Leaf => 0
  | Node _ l r _ => S (size l + size r)
  end.

Fixpoint depth (t : tree T) : nat :=
  match t with
  | Leaf => 0
  | Node _ l r _ => S (Nat.max (depth l) (depth r))
  end.

(** Height correctness and AVL balance at every node. *)
Fixpoint avl (t : tree T) : Prop :=
  match t with
  | Leaf => True
  | Node _ l r h =>
      avl l ∧ avl r ∧
      h = 1 + Z.max (getHeight l) (getHeight r) ∧
      -1 ≤ getHeight l - getHeight r ≤ 1
  end.

(** Search-tree order at every node. *)
Fixpoint bst (t : tree T) : Prop :=
  match t with
  | Leaf => True
  | Node v l r _ =>
      bst l ∧ bst r ∧
      Forall (λ y, y ≺ v) (elements l) ∧ Forall (λ y, v ≺ y) (elements r)
  end.

(** A strictly increasing sequence. *)
Definition increasing (xs : list T) : Prop :=
  StronglySorted (λ x y, x ≺ y) xs.

(** Height correctness alone: every cached height is 1 + the larger of the
    children's cached heights, whatever the balance. *)
Fixpoint heights_ok (t : tree T) : Prop :=
  match t with
  | Leaf => True
  | Node _ l r h =>
      heights_ok l ∧ heights_ok r ∧
      h = 1 + Z.max (getHeight l) (getHeight r)
  end.

(** The set of values that a sequence of public calls leaves behind, as a
    predicate: [insert] adds its argument, [remove] takes it out. *)
Definition stored_after (c : call) (S : T → Prop) : T → Prop :=
  match c with
  | Insert v => λ x, x = v ∨ S x
  | Remove v => λ x, x ≠ v ∧ S x
  end.

Fixpoint contents (calls : list call) (S : T → Prop) : T → Prop :=
  match calls with
  | [] => S
  | c :: calls => contents calls (stored_after c S)
  end.

(** The values of a subtree, root first, and root last. *)
Fixpoint rootFirst (t : tree T) : list T :=
  match t with
  | Leaf => []
  | Node v l r _ => v :: rootFirst l ++ rootFirst r
  end.

Fixpoint rootLast (t : tree T) : list T :=
  match t with
  | Leaf => []
  | Node v l r _ => rootLast l ++ rootLast r ++ [v]
  end.

#[global] Instance heights_ok_dec (t : tree T) : Decision (heights_ok t).
Proof. induction t; simpl; apply _. Defined.

#[global] Instance avl_dec (t : tree T) : Decision (avl t).
Proof. induction t; simpl; apply _. Defined.

#[global] Instance bst_dec (t : tree T) : Decision (bst t).
Proof. induction t; simpl; apply _. Defined.

End Invariants.

(** ** Sparsest trees of a given height *)

(** [minNodes d] is the least number of nodes of a balanced tree with [d]
    levels: 0, 1, 2, 4, 7, 12, ... (a Fibonacci number minus one).  The pair
    carries two consecutive entries so that the table is built in one pass. *)
Fixpoint minNodes_pair (d : nat) : Z * Z :=
  match d with
  | O => (0, 1)
  | S k => let '(a, b) := minNodes_pair k in (b, 1 + a + b)
  end.

Definition minNodes (d : nat) : Z := fst (minNodes_pair d).

(** [h ≤ (p/q)·log2 (n + 2)], written without logarithms:
    [2 ^ (q·h) ≤ (n + 2) ^ p]. *)
Definition log_bound (p q h n : Z) : Prop := 2 ^ (q * h) ≤ (n + 2) ^ p.

#[global] Instance log_bound_dec p q h n : Decision (log_bound p q h n).
Proof. unfold log_bound. apply _. Defined.

(** The bound with 1.44 = 36/25. *)
Definition height_bound (h n : Z) : Prop := log_bound 36 25 h n.

#[global] Instance height_bound_dec h n : Decision (height_bound h n).
Proof. unfold height_bound. apply _. Defined.

(** One row of the table behind the bound with 1.44: the inequality
    [2 ^ (25·d) ≤ (minNodes d + 2) ^ 36] is decided on the twelve leading
    bits of [minNodes d + 2], the rest being rounded away downwards. *)
Definition row_ok (d : nat) : bool :=
  let a := minNodes d + 2 in
  let k := Z.max 0 (Z.log2 a - 12) in
  (36 * k <=? 25 * Z.of_nat d) &&
  (2 ^ (25 * Z.of_nat d - 36 * k) <=? (a / 2 ^ k) ^ 36).

(** The largest [int].  The additions of [updateHeight] are additions of
    [int]s: they are those of [Z] as long as the sum stays below this bound
    (beyond it the behaviour of the code is undefined). *)
Definition INT_MAX : Z := 2147483647.

(** A tree lives in the address space of the machine: it has fewer nodes
    than there are addresses behind a 64-bit [Node*]. *)
Definition addressable (n : nat) : Prop := Z.of_nat n < 2 ^ 64.

(** [sparse d lo]: some insertion order of [minNodes d] distinct integers
    from [lo] upwards builds a valid tree with [d] levels. *)
Definition sparse (d : nat) (lo : Z) : Prop :=
  ∃ (vs : list Z) (t : tree Z),
    NoDup vs ∧ Forall (λ x, lo ≤ x < lo + minNodes d) vs ∧
    insertAll vs Leaf = Some t ∧ avl t ∧ depth t = d ∧
    Z.of_nat (length vs) = minNodes d.

(** ** The tree of the demonstration driver *)

(** [main] builds this tree by inserting 10, 20, 30, 40, 50, 25. *)
Definition demo : tree Z :=
  Node 30 (Node 20 (Node 10 Leaf Leaf 1) (Node 25 Leaf Leaf 1) 2)
          (Node 40 Leaf (Node 50 Leaf Leaf 1) 2) 3.

(** * Properties *)

Section Facts.
Context {T : Type} `{Ordered T}.

Notation "x ≺ y" := (less x y = true) (at level 70, no associativity).

Implicit Types (t l r : tree T) (v x y : T) (h : Z).

#[local] Arguments rotateRight : simpl never.
#[local] Arguments rotateLeft : simpl never.
#[local] Arguments balance : simpl never.

(** ** Traversal *)

Lemma inOrder_elements t acc : inOrder t acc = acc ++ elements t.
Proof.
  revert acc. induction t as [|v l IHl r IHr h]; intros acc; simpl.
  - by rewrite app_nil_r.
  - rewrite IHr, IHl. by rewrite <- !app_assoc.
Qed.

Lemma inOrderTraversal_elements t : inOrderTraversal t = elements t.
Proof. unfold inOrderTraversal. by rewrite inOrder_elements. Qed.

Lemma size_elements t : size t = length (elements t).
Proof.
  induction t as [|v l IHl r IHr h]; simpl; [done|].
  rewrite length_app. simpl. lia.
Qed.

(** ** Cached heights of valid trees *)

Lemma avl_getHeight_depth t : avl t → getHeight t = Z.of_nat (depth t).
Proof.
  induction t as [|v l IHl r IHr h]; simpl; [done|].
  intros (Hl & Hr & -> & _). rewrite (IHl Hl), (IHr Hr). lia.
Qed.

Lemma avl_getHeight_nonneg t : avl t → 0 ≤ getHeight t.
Proof. intros Ht. rewrite (avl_getHeight_depth t Ht). lia. Qed.

Lemma avl_getHeight_Node v l r h : avl (Node v l r h) → 1 ≤ h.
Proof.
  intros Ht. pose proof (avl_getHeight_depth _ Ht) as E. simpl in E. lia.
Qed.

Lemma avl_getHeight_0 t : avl t → getHeight t ≤ 0 → t = Leaf.
Proof.
  destruct t as [|v l r h]; [done|].
  intros Ht%avl_getHeight_Node. simpl. lia.
Qed.

(** ** Rotations and rebalancing keep the in-order sequence *)

Lemma updateHeight_elements t t' : updateHeight t = Some t' → elements t' = elements t.
Proof. destruct t; simpl; intros; by simplify_eq. Qed.

Lemma rotateRight_elements t t' : rotateRight t = Some t' → elements t' = elements t.
Proof.
  destruct t as [|yv [|xv xl xr xh] yr yh]; cbv [rotateRight]; simpl;
    intros; simplify_eq.
  simpl. by rewrite <- app_assoc.
Qed.

Lemma rotateLeft_elements t t' : rotateLeft t = Some t' → elements t' = elements t.
Proof.
  destruct t as [|xv xl [|yv yl yr yh] xh]; cbv [rotateLeft]; simpl;
    intros; simplify_eq.
  simpl. by rewrite <- app_assoc.
Qed.

Lemma balance_elements t t' : balance t = Some t' → elements t' = elements t.
Proof.
  destruct t as [|v l r h]; [done|]. unfold balance. simpl.
  destruct (1 <? _).
  - destruct (getBalance l <? 0).
    + destruct (rotateLeft l) as [l'|] eqn:E; [|done].
      apply rotateLeft_elements in E. simpl.
      intros Hb%rotateRight_elements. simpl in Hb. congruence.
    + simpl. intros Hb%rotateRight_elements. by simpl in Hb.
  - destruct (_ <? -1); [|intros; by simplify_eq].
    destruct (0 <? getBalance r).
    + destruct (rotateRight r) as [r'|] eqn:E; [|done].
      apply rotateRight_elements in E. simpl.
      intros Hb%rotateLeft_elements. simpl in Hb. congruence.
    + simpl. intros Hb%rotateLeft_elements. by simpl in Hb.
Qed.

(** ** Rebalancing restores the invariant *)

(** Facts about the cached heights of the subtrees in the context. *)
Ltac heights :=
  repeat match goal with
  | Ht : avl ?t |- _ =>
      lazymatch goal with
      | _ : 0 ≤ getHeight t |- _ => fail
      | _ => pose proof (avl_getHeight_nonneg t Ht)
      end
  end.

Lemma avl_Node_inv v l r h :
  avl (Node v l r h) →
  avl l ∧ avl r ∧ h = 1 + Z.max (getHeight l) (getHeight r) ∧
  -1 ≤ getHeight l - getHeight r ≤ 1.
Proof. done. Qed.

Lemma avl_positive_Node t : avl t → 0 < getHeight t → ∃ v l r h, t = Node v l r h.
Proof.
  destruct t as [|v l r h]; simpl; [lia|]. intros _ _. by exists v, l, r, h.
Qed.

Lemma balance_steady v l r h :
  -1 ≤ getHeight l - getHeight r ≤ 1 →
  balance (Node v l r h) = Some (Node v l r (1 + Z.max (getHeight l) (getHeight r))).
Proof.
  intros Hb. unfold balance. simpl.
  destruct (Z.ltb_spec 1 (getHeight l - getHeight r)); [lia|].
  destruct (Z.ltb_spec (getHeight l - getHeight r) (-1)); [lia|done].
Qed.

Lemma balance_left_heavy v l r h :
  avl l → avl r → getHeight l - getHeight r = 2 →
  ∃ t', balance (Node v l r h) = Some t' ∧ avl t' ∧
        getHeight l ≤ getHeight t' ≤ 1 + getHeight l.
Proof.
  intros Hl Hr Hb. unfold balance. simpl.
  destruct (Z.ltb_spec 1 (getHeight l - getHeight r)); [|lia].
  heights.
  destruct (avl_positive_Node l Hl) as (lv & ll & lr & lh & ->); [lia|].
  destruct Hl as (Hll & Hlr & -> & Hlb). simpl in *.
  destruct (Z.ltb_spec (getHeight ll - getHeight lr) 0).
  - heights.
    destruct (avl_positive_Node lr Hlr) as (mv & ml & mr & mh & ->); [lia|].
    destruct Hlr as (Hml & Hmr & -> & Hmb). simpl in *.
    heights. eexists. split; [reflexivity|]. simpl. repeat split; try done; lia.
  - heights. eexists. split; [reflexivity|]. simpl. repeat split; try done; lia.
Qed.

Lemma balance_right_heavy v l r h :
  avl l → avl r → getHeight l - getHeight r = -2 →
  ∃ t', balance (Node v l r h) = Some t' ∧ avl t' ∧
        getHeight r ≤ getHeight t' ≤ 1 + getHeight r.
Proof.
  intros Hl Hr Hb. unfold balance. simpl.
  destruct (Z.ltb_spec 1 (getHeight l - getHeight r)); [lia|].
  destruct (Z.ltb_spec (getHeight l - getHeight r) (-1)); [|lia].
  heights.
  destruct (avl_positive_Node r Hr) as (rv & rl & rr & rh & ->); [lia|].
  destruct Hr as (Hrl & Hrr & -> & Hrb). simpl in *.
  destruct (Z.ltb_spec 0 (getHeight rl - getHeight rr)).
  - heights.
    destruct (avl_positive_Node rl Hrl) as (mv & ml & mr & mh & ->); [lia|].
    destruct Hrl as (Hml & Hmr & -> & Hmb). simpl in *.
    heights. eexists. split; [reflexivity|]. simpl. repeat split; try done; lia.
  - heights. eexists. split; [reflexivity|]. simpl. repeat split; try done; lia.
Qed.

(** What every caller of [balance] relies on: the result is valid, and its
    height is that of the recomputed node, or one less after a rotation. *)
Lemma balance_avl v l r h :
  avl l → avl r → -2 ≤ getHeight l - getHeight r ≤ 2 →
  ∃ t', balance (Node v l r h) = Some t' ∧ avl t' ∧
        Z.max (getHeight l) (getHeight r) ≤ getHeight t'
          ≤ 1 + Z.max (getHeight l) (getHeight r) ∧
        (-1 ≤ getHeight l - getHeight r ≤ 1 →
         getHeight t' = 1 + Z.max (getHeight l) (getHeight r)).
Proof.
  intros Hl Hr Hb.
  destruct (decide (getHeight l - getHeight r = 2)) as [E|].
  { destruct (balance_left_heavy v l r h Hl Hr E) as (t' & ? & ? & ?).
    exists t'. repeat split; try done; lia. }
  destruct (decide (getHeight l - getHeight r = -2)) as [E|].
  { destruct (balance_right_heavy v l r h Hl Hr E) as (t' & ? & ? & ?).
    exists t'. repeat split; try done; lia. }
  eexists. split; [apply balance_steady; lia|].
  simpl. repeat split; try done; lia.
Qed.

(** ** Insertion and removal keep heights and balance *)

Lemma insert_avl t x :
  avl t →
  ∃ t', insert t x = Some t' ∧ avl t' ∧
        getHeight t ≤ getHeight t' ≤ 1 + getHeight t.
Proof.
  induction t as [|v l IHl r IHr h]; intros Ht.
  - exists (newNode x). simpl. repeat split; lia.
  - destruct Ht as (Hl & Hr & -> & Hb). simpl.
    destruct (less x v).
    + destruct (IHl Hl) as (l' & -> & Hl' & Hh). simpl.
      destruct (balance_avl v l' r (1 + Z.max (getHeight l) (getHeight r)))
        as (t' & -> & Ht' & Hh'); [done|done|lia|].
      exists t'. repeat split; try done; lia.
    + destruct (less v x).
      * destruct (IHr Hr) as (r' & -> & Hr' & Hh). simpl.
        destruct (balance_avl v l r' (1 + Z.max (getHeight l) (getHeight r)))
          as (t' & -> & Ht' & Hh'); [done|done|lia|].
        exists t'. repeat split; try done; lia.
      * eexists. split; [done|]. simpl. repeat split; try done; lia.
Qed.

Lemma removeMin_avl t :
  avl t → t ≠ Leaf →
  ∃ t', removeMin t = Some t' ∧ avl t' ∧
        getHeight t - 1 ≤ getHeight t' ≤ getHeight t.
Proof.
  induction t as [|v l IHl r IHr h]; intros Ht Hne; [done|].
  destruct Ht as (Hl & Hr & Eh & Hb). heights.
  destruct l as [|lv ll lr lh].
  - exists r. simpl in *. repeat split; try done; lia.
  - destruct (IHl Hl) as (l' & El & Hl' & Hh); [done|].
    cbn [removeMin] in El |- *. rewrite El. simpl in *.
    destruct (balance_avl v l' r h) as (t' & -> & Ht' & Hh'); [done|done|lia|].
    exists t'. repeat split; try done; lia.
Qed.

Lemma findMin_Node t : t ≠ Leaf → ∃ mv ml mr mh, findMin t = Node mv ml mr mh.
Proof.
  induction t as [|v l IHl r _ h]; intros Hne; [done|].
  destruct l as [|lv ll lr lh]; [by exists v, Leaf, r, h|].
  apply IHl. done.
Qed.

Lemma remove_avl t x :
  avl t →
  ∃ t', remove t x = Some t' ∧ avl t' ∧
        getHeight t - 1 ≤ getHeight t' ≤ getHeight t.
Proof.
  induction t as [|v l IHl r IHr h]; intros Ht.
  - exists Leaf. simpl. repeat split; lia.
  - destruct Ht as (Hl & Hr & -> & Hb). heights. cbn [remove].
    destruct (less x v); [|destruct (less v x)].
    + destruct (IHl Hl) as (l' & -> & Hl' & Hh). simpl.
      destruct (balance_avl v l' r (1 + Z.max (getHeight l) (getHeight r)))
        as (t' & -> & Ht' & Hh'); [done|done|lia|].
      exists t'. repeat split; try done; lia.
    + destruct (IHr Hr) as (r' & -> & Hr' & Hh). simpl.
      destruct (balance_avl v l r' (1 + Z.max (getHeight l) (getHeight r)))
        as (t' & -> & Ht' & Hh'); [done|done|lia|].
      exists t'. repeat split; try done; lia.
    + destruct r as [|rv rl rr rh].
      * exists l. simpl in *. repeat split; try done; lia.
      * set (r := Node rv rl rr rh) in *.
        destruct (removeMin_avl r Hr) as (r' & -> & Hr' & Hh); [done|].
        destruct (findMin_Node r) as (mv & ml & mr & mh & ->); [done|].
        simpl.
        destruct (balance_avl mv l r' mh) as (t' & -> & Ht' & Hh');
          [done|done|lia|].
        subst r. simpl in *. exists t'. repeat split; try done; lia.
Qed.

Lemma perform_avl t c : avl t → ∃ t', perform t c = Some t' ∧ avl t'.
Proof.
  intros Ht. destruct c as [x|x]; simpl.
  - destruct (insert_avl t x Ht) as (t' & ? & ? & _). by exists t'.
  - destruct (remove_avl t x Ht) as (t' & ? & ? & _). by exists t'.
Qed.

(** ** Search-tree order *)

Lemma less_asym x y : x ≺ y → less y x = false.
Proof.
  intros Hxy. destruct (less y x) eqn:Hyx; [|done].
  rewrite <- (less_irrefl x). symmetry. by apply less_trans with y.
Qed.

Lemma less_ne x y : x ≺ y → x ≠ y.
Proof. intros Hxy ->. rewrite less_irrefl in Hxy. done. Qed.

Lemma increasing_mid (xs ys : list T) x :
  increasing (xs ++ x :: ys) ↔
  increasing xs ∧ increasing ys ∧
  Forall (λ y, y ≺ x) xs ∧ Forall (λ y, x ≺ y) ys.
Proof.
  unfold increasing.
  rewrite StronglySorted_app, StronglySorted_cons, !Forall_forall. split.
  - intros (Hxy & Hxs & Hx & Hys). repeat split; try done.
    intros y Hy. apply Hxy; [done|]. apply elem_of_cons. by left.
  - intros (Hxs & Hys & Hl & Hr). repeat split; try done.
    intros y z Hy [->|Hz]%elem_of_cons; [by apply Hl|].
    apply less_trans with x; [by apply Hl|by apply Hr].
Qed.

Lemma increasing_NoDup (xs : list T) : increasing xs → NoDup xs.
Proof.
  induction 1 as [|x xs _ IH Hx]; constructor; [|done].
  intros Hin. rewrite Forall_forall in Hx. apply Hx in Hin.
  by rewrite less_irrefl in Hin.
Qed.

Lemma bst_increasing t : bst t ↔ increasing (elements t).
Proof.
  induction t as [|v l IHl r IHr h]; simpl.
  - split; [constructor|done].
  - rewrite increasing_mid, IHl, IHr. done.
Qed.

Lemma balance_bst t t' : balance t = Some t' → bst t → bst t'.
Proof.
  intros Hb%balance_elements. rewrite !bst_increasing. by rewrite Hb.
Qed.

(** [contains] decides membership in a search tree. *)
Lemma contains_elements t x : bst t → contains t x = true ↔ x ∈ elements t.
Proof.
  induction t as [|v l IHl r IHr h]; simpl.
  - intros _. split; [done|]. by intros ?%elem_of_nil.
  - intros (Hl & Hr & Hlv & Hvr). rewrite Forall_forall in Hlv, Hvr.
    rewrite elem_of_app, elem_of_cons.
    destruct (less x v) eqn:Hxv; [|destruct (less v x) eqn:Hvx].
    + rewrite (IHl Hl). split; [tauto|]. intros [?|[->|Hin]]; [done| |].
      * by rewrite less_irrefl in Hxv.
      * apply Hvr in Hin. by rewrite (less_asym _ _ Hin) in Hxv.
    + rewrite (IHr Hr). split; [tauto|]. intros [Hin|[->|?]]; [| |done].
      * apply Hlv in Hin. by rewrite (less_asym _ _ Hin) in Hvx.
      * by rewrite less_irrefl in Hvx.
    + split; [|done]. intros _. right. left. by apply less_total.
Qed.

(** ** Insertion adds exactly the inserted value *)

Lemma insert_bst t x t' :
  bst t → insert t x = Some t' →
  bst t' ∧ ∀ y, y ∈ elements t' ↔ y = x ∨ y ∈ elements t.
Proof.
  revert t'. induction t as [|v l IHl r IHr h]; intros t' Ht Hins.
  - simpl in Hins. simplify_eq. simpl. split; [by repeat constructor|].
    intros y. rewrite list_elem_of_singleton, elem_of_nil. tauto.
  - destruct Ht as (Hl & Hr & Hlv & Hvr). cbn [insert] in Hins.
    destruct (less x v) eqn:Hxv; [|destruct (less v x) eqn:Hvx].
    + destruct (insert l x) as [l'|] eqn:El; [|done]. simpl in Hins.
      destruct (IHl l' Hl eq_refl) as (Hl' & Hin).
      split.
      * apply (balance_bst _ _ Hins). simpl. repeat split; try done.
        apply Forall_forall. intros y [->|Hy]%Hin; [done|].
        rewrite Forall_forall in Hlv. by apply Hlv.
      * intros y. rewrite (balance_elements _ _ Hins). simpl.
        rewrite !elem_of_app, !elem_of_cons, Hin. tauto.
    + destruct (insert r x) as [r'|] eqn:Er; [|done]. simpl in Hins.
      destruct (IHr r' Hr eq_refl) as (Hr' & Hin).
      split.
      * apply (balance_bst _ _ Hins). simpl. repeat split; try done.
        apply Forall_forall. intros y [->|Hy]%Hin; [done|].
        rewrite Forall_forall in Hvr. by apply Hvr.
      * intros y. rewrite (balance_elements _ _ Hins). simpl.
        rewrite !elem_of_app, !elem_of_cons, Hin. tauto.
    + simplify_eq. split; [done|]. intros y. simpl.
      rewrite (less_total x v Hxv Hvx).
      rewrite !elem_of_app, !elem_of_cons. tauto.
Qed.

(** ** Removal takes out exactly the removed value *)

(** [removeMin] unlinks the node that [findMin] returns. *)
Lemma removeMin_elements t t' mv ml mr mh :
  removeMin t = Some t' → findMin t = Node mv ml mr mh →
  elements t = mv :: elements t'.
Proof.
  revert t'. induction t as [|v l IHl r _ h]; intros t' Hrm Hmin; [done|].
  destruct l as [|lv ll lr lh].
  - simpl in *. by simplify_eq.
  - set (l := Node lv ll lr lh) in *.
    change ((l' ← removeMin l; balance (Node v l' r h)) = Some t') in Hrm.
    change (findMin l = Node mv ml mr mh) in Hmin.
    destruct (removeMin l) as [l'|] eqn:El; simpl in Hrm; [|done].
    apply balance_elements in Hrm.
    cbn [elements]. by rewrite Hrm, (IHl l' eq_refl Hmin).
Qed.

Lemma remove_bst t x t' :
  bst t → remove t x = Some t' →
  bst t' ∧ ∀ y, y ∈ elements t' ↔ y ∈ elements t ∧ y ≠ x.
Proof.
  revert t'. induction t as [|v l IHl r IHr h]; intros t' Ht Hrm.
  - simpl in Hrm. simplify_eq. split; [done|].
    intros y. simpl. rewrite elem_of_nil. tauto.
  - pose proof Ht as (Hl & Hr & Flv & Fvr).
    pose proof Flv as Hlv. pose proof Fvr as Hvr.
    rewrite Forall_forall in Hlv, Hvr. cbn [remove] in Hrm.
    destruct (less x v) eqn:Hxv; [|destruct (less v x) eqn:Hvx].
    + destruct (remove l x) as [l'|] eqn:El; [|done]. simpl in Hrm.
      destruct (IHl l' Hl eq_refl) as (Hl' & Hin). split.
      * apply (balance_bst _ _ Hrm). simpl. repeat split; try done.
        apply Forall_forall. intros y [Hy _]%Hin. by apply Hlv.
      * intros y. rewrite (balance_elements _ _ Hrm). simpl.
        rewrite !elem_of_app, !elem_of_cons, Hin.
        split; [|tauto]. intros [?|[->|Hy]]; [tauto| |].
        -- split; [tauto|]. symmetry. by apply less_ne.
        -- split; [tauto|]. symmetry. apply less_ne.
           apply less_trans with v; [done|by apply Hvr].
    + destruct (remove r x) as [r'|] eqn:Er; [|done]. simpl in Hrm.
      destruct (IHr r' Hr eq_refl) as (Hr' & Hin). split.
      * apply (balance_bst _ _ Hrm). simpl. repeat split; try done.
        apply Forall_forall. intros y [Hy _]%Hin. by apply Hvr.
      * intros y. rewrite (balance_elements _ _ Hrm). simpl.
        rewrite !elem_of_app, !elem_of_cons, Hin.
        split; [|tauto]. intros [Hy|[->|?]]; [| |tauto].
        -- split; [tauto|]. apply less_ne.
           apply less_trans with v; [by apply Hlv|done].
        -- split; [tauto|]. by apply less_ne.
    + rewrite (less_total x v Hxv Hvx) in *. clear Hxv Hvx.
      destruct r as [|rv rl rr rh].
      * simplify_eq. split; [done|]. intros y. simpl.
        rewrite !elem_of_app, !elem_of_cons, elem_of_nil.
        split; [|tauto]. intros Hy. split; [tauto|].
        apply less_ne. by apply Hlv.
      * set (r := Node rv rl rr rh) in *.
        destruct (removeMin r) as [r'|] eqn:Er;
          cbn [mbind option_bind] in Hrm; [|done].
        destruct (findMin r) as [|mv ml mr mh] eqn:Em; [done|].
        pose proof (removeMin_elements r r' mv ml mr mh Er Em) as Hr'.
        pose proof (balance_elements _ _ Hrm) as Ht'. simpl in Ht'.
        apply bst_increasing in Ht. cbn [elements] in Ht.
        rewrite Hr' in Ht, Hvr.
        apply increasing_mid in Ht as (Hil & Hir & _ & Hvm).
        apply (increasing_mid []) in Hir as (_ & Hir' & _ & Hmr).
        apply Forall_cons in Hvm as [Hvm Hvr'].
        rewrite Forall_forall in Hvr', Hmr. split.
        -- apply bst_increasing. rewrite Ht'. apply increasing_mid.
           repeat split; try done; apply Forall_forall; [|done].
           intros y Hy. apply less_trans with v; [by apply Hlv|done].
        -- intros y. rewrite Ht'. cbn [elements]. rewrite Hr'.
           rewrite !elem_of_app, !elem_of_cons.
           split; [|tauto]. intros [Hy|[->|Hy]].
           ++ split; [tauto|]. apply less_ne. by apply Hlv.
           ++ split; [tauto|]. symmetry. by apply less_ne.
           ++ split; [tauto|]. symmetry. apply less_ne. by apply Hvr'.
Qed.

(** ** No-op paths *)

Lemma remove_absent t x : avl t → x ∉ elements t → remove t x = Some t.
Proof.
  induction t as [|v l IHl r IHr h]; [done|].
  intros (Hl & Hr & -> & Hb) Hx. simpl in Hx.
  rewrite elem_of_app, elem_of_cons in Hx. cbn [remove].
  destruct (less x v) eqn:Hxv; [|destruct (less v x) eqn:Hvx].
  - rewrite IHl by tauto. simpl. by apply balance_steady.
  - rewrite IHr by tauto. simpl. by apply balance_steady.
  - destruct Hx. right. left. by apply less_total.
Qed.

Lemma insert_present t x : avl t → bst t → x ∈ elements t → insert t x = Some t.
Proof.
  induction t as [|v l IHl r IHr h]; [by intros _ _ ?%elem_of_nil|].
  intros (Hl & Hr & -> & Hb) (Bl & Br & Hlv & Hvr) Hx. simpl in Hx.
  rewrite Forall_forall in Hlv, Hvr.
  rewrite elem_of_app, elem_of_cons in Hx. cbn [insert].
  destruct (less x v) eqn:Hxv; [|destruct (less v x) eqn:Hvx]; [| |done].
  - rewrite IHl; [by apply balance_steady|done|done|].
    destruct Hx as [?|[->|Hx]]; [done| |].
    + by rewrite less_irrefl in Hxv.
    + apply Hvr in Hx. by rewrite (less_asym _ _ Hx) in Hxv.
  - rewrite IHr; [by apply balance_steady|done|done|].
    destruct Hx as [Hx|[->|?]]; [| |done].
    + apply Hlv in Hx. by rewrite (less_asym _ _ Hx) in Hvx.
    + by rewrite less_irrefl in Hvx.
Qed.

(** ** Sequences of public calls *)

Lemma perform_bst t c t' : bst t → perform t c = Some t' → bst t'.
Proof.
  destruct c as [x|x]; simpl; intros Ht Hc.
  - by destruct (insert_bst t x t' Ht Hc).
  - by destruct (remove_bst t x t' Ht Hc).
Qed.

Lemma run_invariant calls t :
  avl t → bst t → ∃ t', run calls t = Some t' ∧ avl t' ∧ bst t'.
Proof.
  revert t. induction calls as [|c calls IH]; intros t Ha Hb; simpl.
  - by exists t.
  - destruct (perform_avl t c Ha) as (t1 & E1 & Ha1). rewrite E1. simpl.
    apply IH; [done|]. by apply (perform_bst t c).
Qed.

(** Every tree that the public calls can produce satisfies the invariants. *)
Lemma run_reaches_valid calls t : run calls Leaf = Some t → avl t ∧ bst t.
Proof.
  intros E. destruct (run_invariant calls Leaf) as (t' & E' & Ha & Hb);
    [done|done|].
  rewrite E in E'. by simplify_eq.
Qed.

Lemma insertAll_elements (vs : list T) t :
  avl t → bst t →
  ∃ t', insertAll vs t = Some t' ∧ avl t' ∧ bst t' ∧
        ∀ y, y ∈ elements t' ↔ y ∈ vs ∨ y ∈ elements t.
Proof.
  unfold insertAll. revert t.
  induction vs as [|x vs IH]; intros t Ha Hb; simpl.
  - exists t. repeat split; try done; [tauto|]. by intros [?%elem_of_nil|?].
  - destruct (insert_avl t x Ha) as (t1 & E1 & Ha1 & _). rewrite E1. simpl.
    destruct (insert_bst t x t1 Hb E1) as (Hb1 & Hin1).
    destruct (IH t1 Ha1 Hb1) as (t' & E' & Ha' & Hb' & Hin').
    exists t'. repeat split; try done.
    + intros Hy%Hin'. rewrite elem_of_cons. rewrite Hin1 in Hy. tauto.
    + intros Hy. apply Hin'. rewrite Hin1. rewrite elem_of_cons in Hy. tauto.
Qed.

(** ** Height against node count *)

Lemma depth_le_size t : (depth t ≤ size t)%nat.
Proof. induction t as [|v l IHl r IHr h]; simpl; lia. Qed.

Lemma minNodes_SS d : minNodes (S (S d)) = 1 + minNodes d + minNodes (S d).
Proof.
  unfold minNodes. simpl. destruct (minNodes_pair d) as [a b]. done.
Qed.

Lemma minNodes_step d : 0 ≤ minNodes d ≤ minNodes (S d).
Proof.
  induction d as [|d IH]; [done|]. rewrite minNodes_SS. lia.
Qed.

Lemma minNodes_mono d d' : (d ≤ d')%nat → minNodes d ≤ minNodes d'.
Proof.
  induction 1 as [|d' _ IH]; [done|]. pose proof (minNodes_step d'). lia.
Qed.

(** A valid tree with [d] levels has at least [minNodes d] nodes. *)
Lemma avl_minNodes t : avl t → minNodes (depth t) ≤ Z.of_nat (size t).
Proof.
  induction t as [|v l IHl r IHr h]; [done|].
  intros (Hl & Hr & _ & Hb).
  specialize (IHl Hl). specialize (IHr Hr).
  rewrite (avl_getHeight_depth l Hl), (avl_getHeight_depth r Hr) in Hb.
  cbn [depth size].
  destruct (Nat.max_spec (depth l) (depth r)) as [[Hlt ->]|[Hge ->]].
  - destruct (depth r) as [|k] eqn:Er; [lia|].
    rewrite minNodes_SS. pose proof (minNodes_mono k (depth l)). lia.
  - destruct (depth l) as [|k] eqn:El.
    + change (minNodes 1) with 1. lia.
    + rewrite minNodes_SS. pose proof (minNodes_mono k (depth r)). lia.
Qed.

(** Rounding the base to its leading bits, downwards and upwards. *)
Lemma trunc_lower (a k e : Z) :
  0 ≤ a → 0 ≤ k → 36 * k ≤ e →
  2 ^ (e - 36 * k) ≤ (a / 2 ^ k) ^ 36 → 2 ^ e ≤ a ^ 36.
Proof.
  intros Ha Hk He.
  assert (e = e - 36 * k + k * 36) as Ee by lia.
  assert (0 ≤ e - 36 * k) as He' by lia.
  rewrite Ee at 2. clear Ee He.
  rewrite Z.pow_add_r, Z.pow_mul_r by (done || lia).
  assert (0 < 2 ^ k) as Hp by (by apply Z.pow_pos_nonneg).
  pose proof (Z.mul_div_le a (2 ^ k) Hp) as Hdiv.
  pose proof (Z.div_pos a (2 ^ k) Ha Hp) as Hq.
  revert Hp Hdiv Hq.
  generalize (a / 2 ^ k); intros q.
  generalize (2 ^ (e - 36 * k)); intros c.
  generalize (2 ^ k); intros p Hp Hdiv Hq Hc.
  trans (q ^ 36 * p ^ 36).
  - apply Z.mul_le_mono_nonneg_r; [apply Z.pow_nonneg; lia|done].
  - rewrite <- Z.pow_mul_l. apply Z.pow_le_mono_l. clear Hc.
    split; [apply Z.mul_nonneg_nonneg; lia|by rewrite Z.mul_comm].
Qed.

Lemma trunc_upper (a k e : Z) :
  0 ≤ a → 0 ≤ k → 36 * k ≤ e →
  (a / 2 ^ k + 1) ^ 36 ≤ 2 ^ (e - 36 * k) → a ^ 36 < 2 ^ e.
Proof.
  intros Ha Hk He.
  assert (e = e - 36 * k + k * 36) as Ee by lia.
  assert (0 ≤ e - 36 * k) as He' by lia.
  rewrite Ee at 2. clear Ee He.
  rewrite Z.pow_add_r, Z.pow_mul_r by (done || lia).
  assert (0 < 2 ^ k) as Hp by (by apply Z.pow_pos_nonneg).
  pose proof (Z.mul_succ_div_gt a (2 ^ k) Hp) as Hdiv.
  pose proof (Z.div_pos a (2 ^ k) Ha Hp) as Hq.
  revert Hp Hdiv Hq.
  generalize (a / 2 ^ k); intros q.
  generalize (2 ^ (e - 36 * k)); intros c.
  generalize (2 ^ k); intros p Hp Hdiv Hq Hc.
  apply Z.lt_le_trans with ((q + 1) ^ 36 * p ^ 36).
  - rewrite <- Z.pow_mul_l. clear Hc. unfold Z.succ in Hdiv.
    apply Z.pow_lt_mono_l; [done|].
    split; [done|by rewrite Z.mul_comm].
  - apply Z.mul_le_mono_nonneg_r; [apply Z.pow_nonneg; lia|done].
Qed.

Lemma row_ok_sound d : row_ok d = true → height_bound (Z.of_nat d) (minNodes d).
Proof.
  unfold row_ok, height_bound, log_bound.
  intros [Hk Hc]%andb_true_iff. apply Z.leb_le in Hk, Hc.
  pose proof (minNodes_step d).
  eapply trunc_lower; [| |exact Hk|exact Hc]; lia.
Qed.

(** The table holds for every height below 94. *)
Lemma height_bound_table : forallb row_ok (seq 0 94) = true.
Proof. vm_compute. reflexivity. Qed.

Lemma minNodes_93 : 2 ^ 64 ≤ minNodes 93.
Proof. vm_compute. discriminate. Qed.

Lemma avl_height_bound t :
  avl t → addressable (size t) →
  height_bound (Z.of_nat (depth t)) (Z.of_nat (size t)).
Proof.
  intros Ht Hn. pose proof (avl_minNodes t Ht) as Hmin.
  assert (depth t < 93)%nat as Hd.
  { destruct (decide (depth t < 93)%nat) as [|Hge]; [done|].
    pose proof (minNodes_mono 93 (depth t)). pose proof minNodes_93.
    unfold addressable in Hn. lia. }
  pose proof height_bound_table as Htab.
  rewrite forallb_forall in Htab.
  assert (row_ok (depth t) = true) as Hrow by (apply Htab, in_seq; lia).
  apply row_ok_sound in Hrow. unfold height_bound, log_bound in *.
  etrans; [exact Hrow|].
  pose proof (minNodes_step (depth t)).
  apply Z.pow_le_mono_l. lia.
Qed.

(** ** Building a tree in two halves *)

Lemma insertAll_cons (vs : list T) t x :
  insertAll (x :: vs) t = t' ← insert t x; insertAll vs t'.
Proof. done. Qed.

Lemma insertAll_avl (vs : list T) t :
  avl t →
  ∃ t', insertAll vs t = Some t' ∧ avl t' ∧ getHeight t ≤ getHeight t'.
Proof.
  revert t. induction vs as [|x vs IH]; intros t Ht.
  - exists t. by repeat split.
  - destruct (insert_avl t x Ht) as (t1 & E1 & Ht1 & Hh1).
    destruct (IH t1 Ht1) as (t' & E' & Ht' & Hh').
    exists t'. rewrite insertAll_cons, E1. repeat split; try done. lia.
Qed.

Lemma insert_left v l r h x l' :
  x ≺ v → insert l x = Some l' → -1 ≤ getHeight l' - getHeight r ≤ 1 →
  insert (Node v l r h) x
  = Some (Node v l' r (1 + Z.max (getHeight l') (getHeight r))).
Proof.
  intros Hx El Hb. cbn [insert]. rewrite Hx, El. simpl.
  by apply balance_steady.
Qed.

Lemma insert_right v l r h x r' :
  v ≺ x → insert r x = Some r' → -1 ≤ getHeight l - getHeight r' ≤ 1 →
  insert (Node v l r h) x
  = Some (Node v l r' (1 + Z.max (getHeight l) (getHeight r'))).
Proof.
  intros Hx Er Hb. cbn [insert]. rewrite (less_asym _ _ Hx), Hx, Er. simpl.
  by apply balance_steady.
Qed.

(** Two insertion sequences, one for each side of [v], can be interleaved
    so that the root never goes out of balance: the side that is lower goes
    first.  No rotation happens at the root, and each side is built as it
    would be alone. *)
Lemma interleave v (n : nat) :
  ∀ (sl sr : list T) l r lf rf h,
    (length sl + length sr ≤ n)%nat →
    avl l → avl r →
    Forall (λ y, y ≺ v) sl → Forall (λ y, v ≺ y) sr →
    insertAll sl l = Some lf → insertAll sr r = Some rf →
    -1 ≤ getHeight l - getHeight r ≤ 1 →
    -1 ≤ getHeight lf - getHeight rf ≤ 1 →
    h = 1 + Z.max (getHeight l) (getHeight r) →
    ∃ s, s ≡ₚ sl ++ sr ∧
         insertAll s (Node v l r h)
         = Some (Node v lf rf (1 + Z.max (getHeight lf) (getHeight rf))).
Proof.
  induction n as [|n IH]; intros sl sr l r lf rf h Hn Hl Hr Fl Fr El Er Hb Hf ->.
  { destruct sl, sr; simpl in Hn; try lia.
    exists []. split; [done|]. cbv in El, Er. by simplify_eq. }
  assert (∀ x sl', sl = x :: sl' →
            getHeight l ≤ getHeight r ∨ sr = [] →
            ∃ s, s ≡ₚ sl ++ sr ∧
              insertAll s (Node v l r (1 + Z.max (getHeight l) (getHeight r)))
              = Some (Node v lf rf (1 + Z.max (getHeight lf) (getHeight rf))))
    as Left.
  { intros x sl' -> Hlow. rewrite insertAll_cons in El.
    destruct (insert_avl l x Hl) as (l1 & E1 & Hl1 & Hh1).
    rewrite E1 in El. simpl in El.
    destruct (insertAll_avl sl' l1 Hl1) as (lf' & El' & _ & Hm).
    rewrite El in El'. simplify_eq.
    destruct (insertAll_avl sr r Hr) as (rf' & Er' & _ & Hmr).
    rewrite Er in Er'. simplify_eq.
    apply Forall_cons in Fl as [Hx Fl].
    assert (-1 ≤ getHeight l1 - getHeight r ≤ 1) as Hb1.
    { destruct Hlow as [?| ->]; [lia|]. cbv in Er. simplify_eq. lia. }
    destruct (IH sl' sr l1 r lf' rf'
                (1 + Z.max (getHeight l1) (getHeight r)))
      as (s & Hs & Es); try done; [simpl in Hn; lia|].
    exists (x :: s). split; [simpl; by f_equiv|].
    rewrite insertAll_cons, (insert_left v l r _ x l1) by done. done. }
  assert (∀ y sr', sr = y :: sr' →
            getHeight r < getHeight l ∨ sl = [] →
            ∃ s, s ≡ₚ sl ++ sr ∧
              insertAll s (Node v l r (1 + Z.max (getHeight l) (getHeight r)))
              = Some (Node v lf rf (1 + Z.max (getHeight lf) (getHeight rf))))
    as Right.
  { intros y sr' -> Hlow. rewrite insertAll_cons in Er.
    destruct (insert_avl r y Hr) as (r1 & E1 & Hr1 & Hh1).
    rewrite E1 in Er. simpl in Er.
    destruct (insertAll_avl sr' r1 Hr1) as (rf' & Er' & _ & Hm).
    rewrite Er in Er'. simplify_eq.
    destruct (insertAll_avl sl l Hl) as (lf' & El' & _ & Hml).
    rewrite El in El'. simplify_eq.
    apply Forall_cons in Fr as [Hy Fr].
    assert (-1 ≤ getHeight l - getHeight r1 ≤ 1) as Hb1.
    { destruct Hlow as [?| ->]; [lia|]. cbv in El. simplify_eq. lia. }
    destruct (IH sl sr' l r1 lf' rf'
                (1 + Z.max (getHeight l) (getHeight r1)))
      as (s & Hs & Es); try done;
      [rewrite length_cons in Hn; lia|].
    exists (y :: s). split.
    - rewrite Hs. apply Permutation_middle.
    - rewrite insertAll_cons, (insert_right v l r _ y r1) by done. done. }
  destruct sl as [|x sl'], sr as [|y sr'].
  - exists []. split; [done|]. cbv in El, Er. by simplify_eq.
  - eapply Right; [done|by right].
  - eapply Left; [done|by right].
  - destruct (decide (getHeight l ≤ getHeight r)).
    + eapply Left; [done|by left].
    + eapply Right; [done|left; lia].
Qed.

Lemma ln_2_pos : (0 < ln 2)%R.
Proof. rewrite <- ln_1. apply ln_increasing; lra. Qed.

Lemma ln_monotone (a b : R) : (0 < a)%R → (a <= b)%R → (ln a <= ln b)%R.
Proof.
  intros Ha [Hlt| ->]; [|apply Rle_refl].
  apply Rlt_le. by apply ln_increasing.
Qed.

Lemma ln_le_inv (a b : R) : (0 < a)%R → (0 < b)%R → (ln a <= ln b)%R → (a <= b)%R.
Proof.
  intros Ha Hb Hl. apply Rnot_lt_le. intros Hlt.
  apply (ln_increasing b a Hb) in Hlt. lra.
Qed.

(** [log_bound] is the logarithmic bound with factor [p/q]. *)
Lemma log_bound_real (p q h n : Z) :
  0 < p → 0 < q → 0 ≤ h → 0 ≤ n →
  log_bound p q h n ↔
  (IZR h <= IZR p / IZR q * (ln (IZR n + 2) / ln 2))%R.
Proof.
  intros Hp Hq Hh Hn. unfold log_bound.
  assert (0 < IZR (n + 2))%R as Hx by (apply IZR_lt; lia).
  assert (0 < IZR q)%R as Hq' by (by apply IZR_lt).
  pose proof ln_2_pos as H2.
  assert ((IZR h <= IZR p / IZR q * (ln (IZR n + 2) / ln 2))%R ↔
          (IZR q * IZR h * ln 2 <= IZR p * ln (IZR (n + 2)))%R) as ->.
  { rewrite plus_IZR.
    replace (IZR p * ln (IZR n + 2))%R
      with (IZR p / IZR q * (ln (IZR n + 2) / ln 2) * (IZR q * ln 2))%R
      by (field; lra).
    replace (IZR q * IZR h * ln 2)%R with (IZR h * (IZR q * ln 2))%R by ring.
    assert (0 < IZR q * ln 2)%R as Hpos by (by apply Rmult_lt_0_compat).
    split; [by apply Rmult_le_compat_r, Rlt_le|by apply Rmult_le_reg_r]. }
  assert (IZR q * IZR h = INR (Z.to_nat (q * h)))%R as ->.
  { by rewrite INR_IZR_INZ, Z2Nat.id, mult_IZR by lia. }
  assert (IZR p = INR (Z.to_nat p))%R as ->.
  { by rewrite INR_IZR_INZ, Z2Nat.id by lia. }
  rewrite <- !ln_pow by (done || lra).
  rewrite <- (Z2Nat.id (q * h)) at 1 by lia.
  rewrite <- (Z2Nat.id p) at 1 by lia.
  split.
  - intros Hb%IZR_le. rewrite <- !pow_IZR in Hb.
    apply ln_monotone; [apply pow_lt; lra|done].
  - intros Hl. apply le_IZR. rewrite <- !pow_IZR.
    apply ln_le_inv; [apply pow_lt; lra|by apply pow_lt|done].
Qed.

Lemma height_bound_log (h n : Z) :
  0 ≤ h → 0 ≤ n →
  height_bound h n ↔ (IZR h <= 1.44 * (ln (IZR n + 2) / ln 2))%R.
Proof.
  intros Hh Hn. unfold height_bound.
  rewrite (log_bound_real 36 25 h n) by lia.
  replace (IZR 36 / IZR 25)%R with 1.44%R by lra. done.
Qed.

(** ** The bound with the constant rounded upwards *)

(** Sparsest trees grow like the Fibonacci numbers, faster than the powers
    of 1.618 = 809/500. *)
Lemma minNodes_growth d :
  809 ^ Z.of_nat d ≤ 500 ^ Z.of_nat d * (minNodes d + 1) ∧
  809 ^ Z.of_nat (S d) ≤ 500 ^ Z.of_nat (S d) * (minNodes (S d) + 1).
Proof.
  induction d as [|d [IH1 IH2]]; [by vm_compute|].
  split; [done|]. rewrite minNodes_SS.
  rewrite (Nat2Z.inj_succ (S d)), !Z.pow_succ_r by lia.
  rewrite (Nat2Z.inj_succ d), !Z.pow_succ_r in IH2 |- * by lia.
  assert (0 ≤ 809 ^ Z.of_nat d) by (apply Z.pow_nonneg; lia).
  nia.
Qed.

(** 1.618 ^ 2881 ≥ 2 ^ 2000, in two stages through 2881 = 43·67. *)
Lemma power_check_43 : 968300000 * 500 ^ 43 ≤ 809 ^ 43.
Proof. vm_compute. discriminate. Qed.

Lemma power_check_67 : 2 ^ 2000 ≤ 968300000 ^ 67.
Proof. vm_compute. discriminate. Qed.

Lemma pow_swap (a k m : Z) : 0 ≤ k → 0 ≤ m → (a ^ k) ^ m = (a ^ m) ^ k.
Proof. intros Hk Hm. by rewrite <- !Z.pow_mul_r, Z.mul_comm. Qed.

Lemma avl_log_bound t :
  avl t → log_bound 2881 2000 (Z.of_nat (depth t)) (Z.of_nat (size t)).
Proof.
  intros Ht. pose proof (avl_minNodes t Ht) as Hmin.
  set (d := depth t) in *. set (n := Z.of_nat (size t)) in *.
  destruct (minNodes_growth d) as [Hg _].
  pose proof (minNodes_step d) as Hd.
  unfold log_bound.
  trans ((minNodes d + 1) ^ 2881); [|apply Z.pow_le_mono_l; lia].
  set (b := minNodes d + 1) in *. set (k := Z.of_nat d) in *.
  assert (0 ≤ k) as Hk by apply Nat2Z.is_nonneg.
  assert (968300000 ^ k ≤ b ^ 43) as Hs.
  { assert (0 < (500 ^ k) ^ 43) as Hpos.
    { apply Z.pow_pos_nonneg; [by apply Z.pow_pos_nonneg|done]. }
    apply (Z.mul_le_mono_pos_l _ _ _ Hpos).
    rewrite <- (Z.pow_mul_l (500 ^ k) b).
    trans ((809 ^ k) ^ 43).
    - rewrite (pow_swap 500), (pow_swap 809), <- Z.pow_mul_l by done.
      rewrite (Z.mul_comm (500 ^ 43)).
      apply Z.pow_le_mono_l. split; [done|apply power_check_43].
    - apply Z.pow_le_mono_l. split; [by apply Z.pow_nonneg|done]. }
  change 2881 with (43 * 67). rewrite (Z.pow_mul_r b) by done.
  trans ((968300000 ^ k) ^ 67).
  - rewrite (pow_swap 968300000), Z.pow_mul_r by done.
    apply Z.pow_le_mono_l. split; [done|apply power_check_67].
  - apply Z.pow_le_mono_l. split; [by apply Z.pow_nonneg|done].
Qed.

(** * The claims *)

(** C1. After any finite sequence of [insert] and [remove] calls on an
    initially empty tree, every call has returned, every node of the
    resulting tree has subtree heights that differ by at most 1 and a cached
    height equal to 1 + the larger of its children's heights (0 for an absent
    child), and the in-order traversal is strictly increasing. *)
Theorem invariant_preservation (calls : list call) :
  ∃ t, run calls Leaf = Some t ∧ avl t ∧ increasing (inOrderTraversal t).
Proof.
  destruct (run_invariant calls Leaf) as (t & E & Ha & Hb); [done|done|].
  exists t. repeat split; try done.
  rewrite inOrderTraversal_elements. by apply bst_increasing.
Qed.

(** C2. For a node whose two subtrees are valid and whose balance factor is
    at most 2 in absolute value, [balance] returns a root whose whole subtree
    is valid and has the in-order sequence of the input; when the balance
    factor is at most 1 in absolute value the same node comes back, with its
    recomputed height and no rotation. *)
Theorem balance_contract v l r h :
  avl l → avl r → -2 ≤ getHeight l - getHeight r ≤ 2 →
  ∃ t', balance (Node v l r h) = Some t' ∧ avl t' ∧
        inOrderTraversal t' = inOrderTraversal (Node v l r h) ∧
        (-1 ≤ getHeight l - getHeight r ≤ 1 →
         t' = Node v l r (1 + Z.max (getHeight l) (getHeight r))).
Proof.
  intros Hl Hr Hb.
  destruct (balance_avl v l r h Hl Hr Hb) as (t' & E & Ht' & _).
  exists t'. repeat split; try done.
  - rewrite !inOrderTraversal_elements. by apply balance_elements.
  - intros Hs. rewrite (balance_steady v l r h Hs) in E. by simplify_eq.
Qed.

(** C3. Inserting pairwise-distinct values, in any order, into an empty tree
    and traversing in order yields the strictly increasing arrangement of
    those values. *)
Theorem insert_roundtrip (vs : list T) :
  NoDup vs →
  ∃ t, insertAll vs Leaf = Some t ∧
       increasing (inOrderTraversal t) ∧ inOrderTraversal t ≡ₚ vs.
Proof.
  intros Hnd.
  destruct (insertAll_elements vs Leaf) as (t & E & Ha & Hb & Hin);
    [done|done|].
  exists t. rewrite inOrderTraversal_elements.
  apply bst_increasing in Hb. repeat split; try done.
  apply NoDup_Permutation; [by apply increasing_NoDup|done|].
  intros y. rewrite Hin. simpl. rewrite elem_of_nil. tauto.
Qed.

(** C4. On a tree that satisfies the data-model invariants, [remove v]
    returns a tree in which [contains v] is false and [contains w] is what it
    was for every other value [w]. *)
Theorem remove_contains t v :
  avl t → bst t →
  ∃ t', remove t v = Some t' ∧ contains t' v = false ∧
        ∀ w, w ≠ v → contains t' w = contains t w.
Proof.
  intros Ha Hb. destruct (remove_avl t v Ha) as (t' & E & _).
  destruct (remove_bst t v t' Hb E) as (Hb' & Hin).
  exists t'. repeat split; [done| |].
  - destruct (contains t' v) eqn:Ec; [|done].
    apply contains_elements, Hin in Ec; [|done]. by destruct Ec.
  - intros w Hw. apply eq_true_iff_eq.
    rewrite !contains_elements, Hin by done. tauto.
Qed.

(** C5. [rotateRight] on [y] with left child [x] returns [x] as root, with
    [x]'s former right child as [y]'s left child and [y] as [x]'s right
    child; the height of [y] is recomputed first and that of [x] from it; the
    three outer subtrees are untouched, the in-order sequence and the number
    of nodes are unchanged.  [rotateLeft] is the mirror image.  The cached
    heights of the three outer subtrees are [int]s below [INT_MAX - 1], so
    that the two recomputed heights are [int]s as well. *)
Theorem rotation_contract (xv yv : T) (a b c : tree T) (xh yh : Z) :
  getHeight a < INT_MAX - 1 → getHeight b < INT_MAX - 1 →
  getHeight c < INT_MAX - 1 →
  (let y := Node yv (Node xv a b xh) c yh in
   let y' := Node yv b c (1 + Z.max (getHeight b) (getHeight c)) in
   let x' := Node xv a y' (1 + Z.max (getHeight a) (getHeight y')) in
   rotateRight y = Some x' ∧
   getHeight y' ≤ INT_MAX ∧ getHeight x' ≤ INT_MAX ∧
   inOrderTraversal x' = inOrderTraversal y ∧ size x' = size y) ∧
  (let x := Node xv a (Node yv b c yh) xh in
   let x' := Node xv a b (1 + Z.max (getHeight a) (getHeight b)) in
   let y' := Node yv x' c (1 + Z.max (getHeight x') (getHeight c)) in
   rotateLeft x = Some y' ∧
   getHeight x' ≤ INT_MAX ∧ getHeight y' ≤ INT_MAX ∧
   inOrderTraversal y' = inOrderTraversal x ∧ size y' = size x).
Proof.
  intros Ba Bb Bc.
  split; cbv zeta; (split; [done|]);
    rewrite !inOrderTraversal_elements; simpl;
    (split; [lia|]); (split; [lia|]);
    (split; [by rewrite <- app_assoc|lia]).
Qed.

(** C7. Inserting a value that the tree already contains returns the very
    same tree: same nodes, same values, same cached heights. *)
Theorem insert_idempotent t v :
  avl t → bst t → contains t v = true → insert t v = Some t.
Proof.
  intros Ha Hb Hc. apply insert_present; [done|done|].
  by apply contains_elements.
Qed.

(** C9. Removing a value that is not stored (the empty tree included)
    returns the very same tree, so [empty], the structure, the values and
    the cached heights are as before. *)
Theorem remove_absent_noop t v :
  avl t → v ∉ inOrderTraversal t →
  remove t v = Some t ∧ empty <$> remove t v = Some (empty t).
Proof.
  intros Ha Hv. rewrite inOrderTraversal_elements in Hv.
  by rewrite (remove_absent t v Ha Hv).
Qed.

(** C10. A [None] of the embedding is the dereference of an absent node.
    With valid subtrees and a balance factor of at most 2 in absolute value
    [balance] returns, so that its outer and inner rotations found the child
    they read; [removeMin] returns on every valid tree that is not empty;
    [remove] returns on every valid tree, so that [findMin] and [removeMin]
    were called on a right subtree that is present; so does [insert]. *)
Theorem dereference_safety :
  (∀ v l r h, avl l → avl r → -2 ≤ getHeight l - getHeight r ≤ 2 →
     is_Some (balance (Node v l r h))) ∧
  (∀ t, avl t → t ≠ Leaf → is_Some (removeMin t) ∧ findMin t ≠ Leaf) ∧
  (∀ t x, avl t → is_Some (remove t x)) ∧
  (∀ t x, avl t → is_Some (insert t x)).
Proof.
  repeat split.
  - intros v l r h Hl Hr Hb.
    destruct (balance_avl v l r h Hl Hr Hb) as (t' & E & _). by exists t'.
  - destruct (removeMin_avl t) as (t' & E & _); [done|done|]. by exists t'.
  - destruct (findMin_Node t) as (mv & ml & mr & mh & E); [done|].
    by rewrite E.
  - intros t x Ht. destruct (remove_avl t x Ht) as (t' & E & _). by exists t'.
  - intros t x Ht. destruct (insert_avl t x Ht) as (t' & E & _). by exists t'.
Qed.

End Facts.

(** ** Sparsest trees are reachable by insertions alone *)

Lemma sparse_step d lo :
  sparse (S d) lo → sparse d (lo + minNodes (S d) + 1) → sparse (S (S d)) lo.
Proof.
  intros (sl & lf & Nl & Fl & El & Al & Dl & Ll) (sr & rf & Nr & Fr & Er & Ar & Dr & Lr).
  set (v := lo + minNodes (S d)) in *.
  pose proof (minNodes_step d) as Hd. pose proof (minNodes_step (S d)) as HSd.
  rewrite Forall_forall in Fl, Fr.
  destruct (interleave v (length sl + length sr) sl sr Leaf Leaf lf rf 1)
    as (s & Hs & Es); try done.
  { apply Forall_forall. intros x Hx%Fl. apply Z.ltb_lt. lia. }
  { apply Forall_forall. intros x Hx%Fr. apply Z.ltb_lt. lia. }
  { rewrite (avl_getHeight_depth lf Al), (avl_getHeight_depth rf Ar). lia. }
  assert (∀ x, x ∈ s ↔ x ∈ sl ∨ x ∈ sr) as Hin.
  { intros x. by rewrite Hs, elem_of_app. }
  exists (v :: s), (Node v lf rf (1 + Z.max (getHeight lf) (getHeight rf))).
  rewrite minNodes_SS. repeat split; try done.
  - apply NoDup_cons. split.
    + intros [Hx%Fl|Hx%Fr]%Hin; lia.
    + rewrite Hs. apply NoDup_app. repeat split; try done.
      intros x Hl%Fl Hr%Fr. lia.
  - apply Forall_cons. split; [lia|].
    apply Forall_forall. intros x [Hx%Fl|Hx%Fr]%Hin; lia.
  - rewrite (avl_getHeight_depth lf Al), (avl_getHeight_depth rf Ar). lia.
  - rewrite (avl_getHeight_depth lf Al), (avl_getHeight_depth rf Ar). lia.
  - simpl. rewrite Dl, Dr. lia.
  - rewrite length_cons, Hs, length_app. lia.
Qed.

Lemma sparse_pair d : ∀ lo, sparse d lo ∧ sparse (S d) lo.
Proof.
  induction d as [|d IH]; intros lo.
  - split.
    + exists [], Leaf. repeat split; try done; constructor.
    + exists [lo], (Node lo Leaf Leaf 1).
      repeat split; try done; [apply NoDup_singleton|].
      apply Forall_singleton. change (minNodes 1) with 1. lia.
  - split; [apply IH|]. apply sparse_step; apply IH.
Qed.

Lemma sparse_1124 : (minNodes 1124 + 2) ^ 36 < 2 ^ (25 * Z.of_nat 1124).
Proof.
  apply (trunc_upper _ 741); [|done|done|].
  - pose proof (minNodes_step 1124). lia.
  - vm_compute. discriminate.
Qed.

(** A height at which the sparsest tree is too small for the factor 1.44
    refutes the bound: that tree is the result of a sequence of insertions. *)
Lemma sparse_refutes (d : nat) :
  (minNodes d + 2) ^ 36 < 2 ^ (25 * Z.of_nat d) →
  ¬ (∀ vs : list Z, NoDup vs →
       ∃ t, insertAll vs Leaf = Some t ∧
            (IZR (getHeight t)
             <= 1.44 * (ln (IZR (Z.of_nat (length vs)) + 2) / ln 2))%R).
Proof.
  intros Hd Hc.
  destruct (sparse_pair d 0) as [(vs & t & Nd & _ & E & Ha & Dt & Hl) _].
  destruct (Hc vs Nd) as (t' & E' & Hb).
  rewrite E in E'. injection E' as <-.
  rewrite (avl_getHeight_depth t Ha), Dt, Hl in Hb.
  pose proof (proj1 (minNodes_step d)) as Hm.
  apply height_bound_log in Hb; [|apply Nat2Z.is_nonneg|done].
  apply Z.le_ngt in Hb. by apply Hb.
Qed.

(** Why [height_logarithmic] asks for an addressable number of values.  In
    the embedding, where a list may be longer than any memory, the factor
    1.44 is too small: it is below 1/log2 ((1 + √5)/2) = 1.4404..., and the
    sparsest valid tree with 1124 levels, which has more than 2^780 nodes,
    is built by inserting its values in a suitable order.  No run of the
    program holds such a tree. *)
Lemma height_bound_needs_addressable :
  ¬ (∀ vs : list Z, NoDup vs →
       ∃ t, insertAll vs Leaf = Some t ∧
            (IZR (getHeight t)
             <= 1.44 * (ln (IZR (Z.of_nat (length vs)) + 2) / ln 2))%R).
Proof. exact (sparse_refutes 1124 sparse_1124). Qed.

(** C6. The tree built by inserting [n] pairwise-distinct values into an
    empty tree has height at most 1.44·log2 (n + 2), for every number [n]
    of values that the program can hold: each value is a node on the heap,
    so [n] is below 2^64.  The cached root height is the number of levels of
    the tree.  Inserting 1, 2, 3, 4, 5 in this order gives a tree of
    height 3. *)
Theorem height_logarithmic :
  (∀ (T : Type) `(Ordered T) (vs : list T),
     NoDup vs → addressable (length vs) →
     ∃ t, insertAll vs Leaf = Some t ∧
          getHeight t = Z.of_nat (depth t) ∧
          (IZR (getHeight t)
           <= 1.44 * (ln (IZR (Z.of_nat (length vs)) + 2) / ln 2))%R) ∧
  (∃ t : tree Z, insertAll [1; 2; 3; 4; 5] Leaf = Some t ∧
                 getHeight t = 3 ∧ depth t = 3%nat).
Proof.
  split.
  - intros T HT vs Hnd Hn.
    destruct (insertAll_elements vs Leaf) as (t & E & Ha & Hb & Hin);
      [done|done|].
    assert (size t = length vs) as Hsize.
    { rewrite size_elements. apply Permutation_length.
      apply NoDup_Permutation; [|done|].
      - by apply increasing_NoDup, bst_increasing.
      - intros y. rewrite Hin. simpl. rewrite elem_of_nil. tauto. }
    exists t. split; [done|]. rewrite (avl_getHeight_depth t Ha).
    split; [done|]. rewrite <- Hsize.
    apply height_bound_log; [lia|lia|].
    apply avl_height_bound; [done|]. by rewrite Hsize.
  - eexists. split; [reflexivity|]. by split.
Qed.

(** C8. The scenario of the demonstration driver: after inserting 10, 20,
    30, 40, 50, 25 the in-order traversal is 10, 20, 25, 30, 40, 50 and the
    root holds 30; after [remove(30)], [contains(30)] is false, the
    traversal is 10, 20, 25, 40, 50 and the balance factor of the root is
    -1, 0 or 1. *)
Theorem demo_scenario :
  ∃ t t' : tree Z,
    run [Insert 10; Insert 20; Insert 30; Insert 40; Insert 50; Insert 25] Leaf
      = Some t ∧
    inOrderTraversal t = [10; 20; 25; 30; 40; 50] ∧
    (∃ l r h, t = Node 30 l r h) ∧
    run [Remove 30] t = Some t' ∧
    contains t' 30 = false ∧
    inOrderTraversal t' = [10; 20; 25; 40; 50] ∧
    -1 ≤ getBalance t' ≤ 1.
Proof.
  exists demo. eexists. split; [reflexivity|]. split; [reflexivity|].
  split; [by eexists _, _, _|]. split; [reflexivity|].
  split; [reflexivity|]. split; [reflexivity|]. by vm_compute.
Qed.

(** * The theorems at concrete inputs *)

(** [balance] on the node 10 after 20 and 30 went to its right. *)
Lemma balance_contract_witness :
  let r := Node 20 Leaf (Node 30 Leaf Leaf 1) 2 in
  ∃ t', balance (Node 10 Leaf r 2) = Some t' ∧ avl t' ∧
        inOrderTraversal t' = inOrderTraversal (Node 10 Leaf r 2) ∧
        (-1 ≤ getHeight (@Leaf Z) - getHeight r ≤ 1 →
         t' = Node 10 Leaf r (1 + Z.max (getHeight (@Leaf Z)) (getHeight r))).
Proof.
  apply (balance_contract 10 Leaf (Node 20 Leaf (Node 30 Leaf Leaf 1) 2) 2);
    [exact I|compute_done|compute_done].
Defined.

Lemma insert_roundtrip_witness :
  ∃ t, insertAll [30; 10; 20] Leaf = Some t ∧
       increasing (inOrderTraversal t) ∧ inOrderTraversal t ≡ₚ [30; 10; 20].
Proof. apply (insert_roundtrip [30; 10; 20]). compute_done. Defined.

Lemma remove_contains_witness :
  ∃ t', remove demo 30 = Some t' ∧ contains t' 30 = false ∧
        ∀ w, w ≠ 30 → contains t' w = contains demo w.
Proof. apply (remove_contains demo 30); compute_done. Defined.

Lemma height_logarithmic_witness :
  ∃ t, insertAll [30; 10; 20] Leaf = Some t ∧
       getHeight t = Z.of_nat (depth t) ∧
       (IZR (getHeight t) <= 1.44 * (ln (IZR 3 + 2) / ln 2))%R.
Proof.
  apply (proj1 height_logarithmic Z _ [30; 10; 20]); compute_done.
Defined.

(** [rotateRight] at 30 over 20 over 10, and [rotateLeft] at 20 over 30. *)
Lemma rotation_contract_witness :
  rotateRight (Node 30 (Node 20 (Node 10 Leaf Leaf 1) Leaf 2) Leaf 3)
  = Some (Node 20 (Node 10 Leaf Leaf 1) (Node 30 Leaf Leaf 1) 2) ∧
  rotateLeft (Node 20 (Node 10 Leaf Leaf 1) (Node 30 Leaf Leaf 3) 2)
  = Some (Node 30 (Node 20 (Node 10 Leaf Leaf 1) Leaf 2) Leaf 3).
Proof.
  destruct (rotation_contract (T:=Z) 20 30 (Node 10 Leaf Leaf 1) Leaf Leaf 2 3)
    as [(Hr & _) (Hl & _)]; [by vm_compute..|].
  split; [exact Hr|exact Hl].
Defined.

Lemma insert_idempotent_witness : insert demo 25 = Some demo.
Proof. apply (insert_idempotent demo 25); compute_done. Defined.

Lemma remove_absent_noop_witness :
  remove demo 35 = Some demo ∧ empty <$> remove demo 35 = Some (empty demo).
Proof. apply (remove_absent_noop demo 35); compute_done. Defined.

Lemma dereference_safety_witness :
  is_Some (balance (Node 10 Leaf (Node 20 Leaf (Node 30 Leaf Leaf 1) 2) 2)) ∧
  (is_Some (removeMin demo) ∧ findMin demo ≠ Leaf) ∧
  is_Some (remove demo 30) ∧ is_Some (insert demo 35).
Proof.
  destruct (dereference_safety (T:=Z)) as (Hb & Hm & Hr & Hi).
  split; [apply Hb; compute_done|].
  split; [apply Hm; [compute_done|done]|].
  split; [apply Hr|apply Hi]; compute_done.
Defined.

(** * Further properties of the code *)

Section More.
Context {T : Type} `{Ordered T}.

Notation "x ≺ y" := (less x y = true) (at level 70, no associativity).

Implicit Types (t l r : tree T) (v x y : T) (h : Z).

#[local] Arguments rotateRight : simpl never.
#[local] Arguments rotateLeft : simpl never.
#[local] Arguments balance : simpl never.

(** Equality of values is decided by two comparisons, as in the code. *)
Lemma value_eq_dec x y : x = y ∨ x ≠ y.
Proof.
  destruct (less x y) eqn:Hxy; [right; by apply less_ne|].
  destruct (less y x) eqn:Hyx; [right|left; by apply less_total].
  intros ->. by rewrite less_irrefl in Hyx.
Qed.

(** A strictly increasing list is determined by its members. *)
Lemma increasing_unique (xs ys : list T) :
  increasing xs → increasing ys → (∀ x, x ∈ xs ↔ x ∈ ys) → xs = ys.
Proof.
  intros Hxs Hys Hin.
  assert (AntiSymm (=) (λ x y : T, x ≺ y)) as Hanti.
  { intros x y Hxy Hyx. by rewrite (less_asym _ _ Hxy) in Hyx. }
  apply (StronglySorted_unique (λ x y : T, x ≺ y)); [done|done|].
  apply NoDup_Permutation; [by apply increasing_NoDup..|done].
Qed.

(** ** [contains], [empty] and the traversal *)

(** X1. [contains] finds exactly the values of the in-order traversal. *)
Theorem contains_traversal t x :
  bst t → contains t x = true ↔ x ∈ inOrderTraversal t.
Proof. rewrite inOrderTraversal_elements. apply contains_elements. Qed.

(** X2. [empty] is true exactly when [contains] finds nothing, on every tree;
    the value at the root of a tree is always found. *)
Theorem empty_contains t :
  (empty t = true ↔ ∀ x, contains t x = false) ∧
  (∀ v l r h, contains (Node v l r h) v = true).
Proof.
  assert (∀ v l r h, contains (Node v l r h) v = true) as Hroot.
  { intros v l r h. simpl. by rewrite less_irrefl. }
  split; [|done].
  destruct t as [|v l r h]; simpl; [done|]. split; [done|].
  intros Hc. specialize (Hc v). by rewrite less_irrefl in Hc.
Qed.

(** X3. After [insert] the tree is not empty. *)
Theorem insert_not_empty t x :
  avl t → ∃ t', insert t x = Some t' ∧ empty t' = false.
Proof.
  intros Ha. destruct (insert_avl t x Ha) as (t' & E & Ha' & Hh).
  exists t'. split; [done|]. destruct t' as [|v' l' r' h']; [|done].
  destruct t as [|v l r h]; [done|].
  apply avl_getHeight_Node in Ha. simpl in Hh. lia.
Qed.

(** X4. Removing the only stored value leaves the empty tree. *)
Theorem remove_last_empties t x :
  avl t → bst t → (∀ y, contains t y = true → y = x) →
  remove t x = Some Leaf.
Proof.
  intros Ha Hb Hx. destruct (remove_avl t x Ha) as (t' & E & _).
  destruct (remove_bst t x t' Hb E) as (_ & Hin). rewrite E. f_equal.
  destruct t' as [|v' l' r' h']; [done|].
  assert (v' ∈ elements (Node v' l' r' h')) as Hv.
  { simpl. rewrite elem_of_app, elem_of_cons. tauto. }
  apply Hin in Hv as [Hv Hne]. destruct Hne. apply Hx.
  by apply contains_elements.
Qed.

(** ** What [insert] and [remove] do to the contents *)

(** X5. After [insert x] the value is found, and no other answer changes. *)
Theorem insert_contains t x :
  avl t → bst t →
  ∃ t', insert t x = Some t' ∧ contains t' x = true ∧
        ∀ y, y ≠ x → contains t' y = contains t y.
Proof.
  intros Ha Hb. destruct (insert_avl t x Ha) as (t' & E & _).
  destruct (insert_bst t x t' Hb E) as (Hb' & Hin).
  exists t'. repeat split; [done| |].
  - apply contains_elements; [done|]. apply Hin. by left.
  - intros y Hy. apply eq_true_iff_eq.
    rewrite !contains_elements, Hin by done. tauto.
Qed.

(** X6. [insert] adds exactly one node for a value that is not stored, and
    returns the tree as it is for a stored one. *)
Theorem insert_size t x :
  avl t → bst t →
  ∃ t', insert t x = Some t' ∧
        if contains t x then t' = t else size t' = S (size t).
Proof.
  intros Ha Hb. destruct (contains t x) eqn:Hc.
  - exists t. split; [|done]. apply insert_present; [done|done|].
    by apply contains_elements.
  - destruct (insert_avl t x Ha) as (t' & E & _).
    destruct (insert_bst t x t' Hb E) as (Hb' & Hin).
    exists t'. split; [done|]. rewrite !size_elements.
    change (S (length (elements t))) with (length (x :: elements t)).
    apply Permutation_length, NoDup_Permutation.
    + by apply increasing_NoDup, bst_increasing.
    + apply NoDup_cons. split; [|by apply increasing_NoDup, bst_increasing].
      intros Hx. apply contains_elements in Hx; [|done]. congruence.
    + intros y. by rewrite Hin, elem_of_cons.
Qed.

(** X7. [remove] takes out one node for a stored value and none otherwise. *)
Theorem remove_size t x :
  avl t → bst t →
  ∃ t', remove t x = Some t' ∧
        size t = if contains t x then S (size t') else size t'.
Proof.
  intros Ha Hb. destruct (contains t x) eqn:Hc.
  - destruct (remove_avl t x Ha) as (t' & E & _).
    destruct (remove_bst t x t' Hb E) as (Hb' & Hin).
    exists t'. split; [done|]. rewrite !size_elements.
    change (S (length (elements t'))) with (length (x :: elements t')).
    apply Permutation_length, NoDup_Permutation.
    + by apply increasing_NoDup, bst_increasing.
    + apply NoDup_cons. split; [|by apply increasing_NoDup, bst_increasing].
      intros Hx%Hin. by destruct Hx.
    + intros y. rewrite elem_of_cons, Hin.
      apply contains_elements in Hc; [|done].
      destruct (value_eq_dec y x) as [->|Hne]; tauto.
  - exists t. split; [|done]. apply remove_absent; [done|].
    intros Hx. apply contains_elements in Hx; [|done]. congruence.
Qed.

(** ** The tree as a set of values *)

Lemma contents_ext calls (S S' : T → Prop) :
  (∀ x, S x ↔ S' x) → ∀ x, contents calls S x ↔ contents calls S' x.
Proof.
  revert S S'. induction calls as [|c calls IH]; intros S S' HS; [done|].
  simpl. apply IH. intros x. destruct c; simpl; rewrite HS; tauto.
Qed.

Lemma run_contents calls t :
  avl t → bst t →
  ∃ t', run calls t = Some t' ∧ avl t' ∧ bst t' ∧
        ∀ x, x ∈ elements t' ↔ contents calls (λ y, y ∈ elements t) x.
Proof.
  revert t. induction calls as [|c calls IH]; intros t Ha Hb.
  - exists t. by repeat split.
  - destruct (perform_avl t c Ha) as (t1 & E1 & Ha1).
    pose proof (perform_bst t c t1 Hb E1) as Hb1.
    destruct (IH t1 Ha1 Hb1) as (t' & E' & Ha' & Hb' & Hin).
    exists t'. simpl. rewrite E1. repeat split; try done;
      intros Hx; [apply Hin in Hx|apply Hin];
      revert Hx; apply contents_ext; intros y; destruct c as [v|v]; simpl in *.
    + destruct (insert_bst t v t1 Hb E1) as [_ Hi]. by rewrite Hi.
    + destruct (remove_bst t v t1 Hb E1) as [_ Hr]. rewrite Hr. tauto.
    + destruct (insert_bst t v t1 Hb E1) as [_ Hi]. by rewrite Hi.
    + destruct (remove_bst t v t1 Hb E1) as [_ Hr]. rewrite Hr. tauto.
Qed.

(** X8. After any sequence of public calls on an empty tree, [contains] answers
    as a set would: a value is found exactly when it was inserted and not
    removed since. *)
Theorem contains_after_calls (calls : list call) :
  ∃ t, run calls Leaf = Some t ∧
       ∀ x, contains t x = true ↔ contents calls (λ _, False) x.
Proof.
  destruct (run_contents calls Leaf) as (t & E & Ha & Hb & Hin); [done..|].
  exists t. split; [done|]. intros x.
  rewrite contains_elements, Hin by done.
  apply contents_ext. intros y. simpl. by rewrite elem_of_nil.
Qed.

(** X9. The order of insertion does not show in the in-order traversal (it may
    show in the shape of the tree). *)
Theorem insert_order_irrelevant (vs vs' : list T) :
  vs ≡ₚ vs' →
  ∃ t t', insertAll vs Leaf = Some t ∧ insertAll vs' Leaf = Some t' ∧
          inOrderTraversal t = inOrderTraversal t'.
Proof.
  intros Hp.
  destruct (insertAll_elements vs Leaf) as (t & E & _ & Hb & Hin); [done..|].
  destruct (insertAll_elements vs' Leaf) as (t' & E' & _ & Hb' & Hin');
    [done..|].
  exists t, t'. repeat split; try done.
  rewrite !inOrderTraversal_elements.
  apply increasing_unique; [by apply bst_increasing..|].
  intros x. by rewrite Hin, Hin', Hp.
Qed.

(** X10. Inserting a new value and removing it again gives back the same
    in-order traversal. *)
Theorem insert_remove_roundtrip t x :
  avl t → bst t → x ∉ inOrderTraversal t →
  ∃ t1 t2, insert t x = Some t1 ∧ remove t1 x = Some t2 ∧
           inOrderTraversal t2 = inOrderTraversal t.
Proof.
  rewrite !inOrderTraversal_elements. intros Ha Hb Hx.
  destruct (insert_avl t x Ha) as (t1 & E1 & Ha1 & _).
  destruct (insert_bst t x t1 Hb E1) as (Hb1 & Hin1).
  destruct (remove_avl t1 x Ha1) as (t2 & E2 & _).
  destruct (remove_bst t1 x t2 Hb1 E2) as (Hb2 & Hin2).
  exists t1, t2. repeat split; try done.
  rewrite inOrderTraversal_elements.
  apply increasing_unique; [by apply bst_increasing..|].
  intros y. rewrite Hin2, Hin1. split; [tauto|].
  intros Hy. split; [tauto|]. by intros ->.
Qed.

(** X11. Removing a stored value and inserting it again gives back the same
    in-order traversal. *)
Theorem remove_insert_roundtrip t x :
  avl t → bst t → contains t x = true →
  ∃ t1 t2, remove t x = Some t1 ∧ insert t1 x = Some t2 ∧
           inOrderTraversal t2 = inOrderTraversal t.
Proof.
  intros Ha Hb Hx. apply contains_elements in Hx; [|done].
  destruct (remove_avl t x Ha) as (t1 & E1 & Ha1 & _).
  destruct (remove_bst t x t1 Hb E1) as (Hb1 & Hin1).
  destruct (insert_avl t1 x Ha1) as (t2 & E2 & _).
  destruct (insert_bst t1 x t2 Hb1 E2) as (Hb2 & Hin2).
  exists t1, t2. repeat split; try done.
  rewrite !inOrderTraversal_elements.
  apply increasing_unique; [by apply bst_increasing..|].
  intros y. rewrite Hin2, Hin1.
  destruct (value_eq_dec y x) as [->|Hne]; tauto.
Qed.

(** X12. A second [remove] of the same value changes nothing. *)
Theorem remove_twice t x :
  avl t → bst t → ∃ t', remove t x = Some t' ∧ remove t' x = Some t'.
Proof.
  intros Ha Hb. destruct (remove_avl t x Ha) as (t' & E & Ha' & _).
  destruct (remove_bst t x t' Hb E) as (_ & Hin).
  exists t'. split; [done|]. apply remove_absent; [done|].
  intros Hx%Hin. by destruct Hx.
Qed.

(** ** Heights *)

(** X13. One [insert] never lowers the height and raises it by at most one; one
    [remove] never raises it and lowers it by at most one. *)
Theorem height_step t x :
  avl t →
  (∃ t', insert t x = Some t' ∧
         getHeight t ≤ getHeight t' ≤ getHeight t + 1) ∧
  (∃ t', remove t x = Some t' ∧
         getHeight t - 1 ≤ getHeight t' ≤ getHeight t).
Proof.
  intros Ha. split.
  - destruct (insert_avl t x Ha) as (t' & E & _ & Hh). exists t'.
    split; [done|lia].
  - destruct (remove_avl t x Ha) as (t' & E & _ & Hh). by exists t'.
Qed.

Lemma size_lt_pow t : Z.of_nat (size t) < 2 ^ Z.of_nat (depth t).
Proof.
  induction t as [|v l IHl r IHr h]; [done|]. cbn [size depth].
  rewrite (Nat2Z.inj_succ (depth l `max` depth r)), Z.pow_succ_r by lia.
  assert (2 ^ Z.of_nat (depth l) ≤ 2 ^ Z.of_nat (depth l `max` depth r))
    as Ml by (apply Z.pow_le_mono_r; lia).
  assert (2 ^ Z.of_nat (depth r) ≤ 2 ^ Z.of_nat (depth l `max` depth r))
    as Mr by (apply Z.pow_le_mono_r; lia).
  revert IHl IHr Ml Mr.
  generalize (2 ^ Z.of_nat (depth l)), (2 ^ Z.of_nat (depth r)),
    (2 ^ Z.of_nat (depth l `max` depth r)).
  intros. lia.
Qed.

(** X14. After any sequence of public calls, also with removals, the height [h]
    of the tree and its number [n] of nodes satisfy [n < 2 ^ h] and
    [h ≤ 1.4405·log2 (n + 2)]. *)
Theorem height_bounds_after_calls (calls : list call) :
  ∃ t, run calls Leaf = Some t ∧
       Z.of_nat (size t) < 2 ^ getHeight t ∧
       (IZR (getHeight t)
        <= 1.4405 * (ln (IZR (Z.of_nat (size t)) + 2) / ln 2))%R.
Proof.
  destruct (run_invariant calls Leaf) as (t & E & Ha & _); [done..|].
  exists t. split; [done|]. rewrite (avl_getHeight_depth t Ha).
  split; [apply size_lt_pow|].
  replace 1.4405%R with (IZR 2881 / IZR 2000)%R by lra.
  apply log_bound_real; [done|done|lia|lia|]. by apply avl_log_bound.
Qed.

(** ** The minimum of a subtree *)

Lemma findMin_first t :
  t ≠ Leaf → ∃ mv mr mh rest,
    findMin t = Node mv Leaf mr mh ∧ elements t = mv :: rest.
Proof.
  induction t as [|v l IHl r _ h]; intros Hne; [done|].
  destruct l as [|lv ll lr lh]; [by exists v, r, h, (elements r)|].
  destruct IHl as (mv & mr & mh & rest & E & El); [done|].
  exists mv, mr, mh, (rest ++ v :: elements r). split; [done|].
  cbn [elements] in *. by rewrite El.
Qed.

(** X15. [findMin] on a search tree that is not empty returns a node without
    left child whose value is stored and has no stored value below it. *)
Theorem findMin_least t :
  bst t → t ≠ Leaf →
  ∃ mv mr mh, findMin t = Node mv Leaf mr mh ∧ contains t mv = true ∧
              ∀ y, contains t y = true → less y mv = false.
Proof.
  intros Hb Hne.
  destruct (findMin_first t Hne) as (mv & mr & mh & rest & E & El).
  exists mv, mr, mh. split; [done|].
  pose proof Hb as Hi. apply bst_increasing in Hi. rewrite El in Hi.
  apply (increasing_mid []) in Hi as (_ & _ & _ & Hrest).
  rewrite Forall_forall in Hrest. split.
  - apply contains_elements; [done|]. rewrite El. by left.
  - intros y Hy. apply contains_elements in Hy; [|done]. rewrite El in Hy.
    apply elem_of_cons in Hy as [->|Hy]; [apply less_irrefl|].
    apply less_asym. by apply Hrest.
Qed.

(** X16. [removeMin] on a valid tree that is not empty takes out the value that
    [findMin] finds, the first of the in-order traversal, and returns a
    valid tree with the other values. *)
Theorem removeMin_first t :
  avl t → bst t → t ≠ Leaf →
  ∃ mv ml mr mh t',
    findMin t = Node mv ml mr mh ∧ removeMin t = Some t' ∧
    avl t' ∧ bst t' ∧ inOrderTraversal t = mv :: inOrderTraversal t'.
Proof.
  intros Ha Hb Hne.
  destruct (findMin_Node t Hne) as (mv & ml & mr & mh & Em).
  destruct (removeMin_avl t Ha Hne) as (t' & Er & Ha' & _).
  pose proof (removeMin_elements t t' mv ml mr mh Er Em) as El.
  exists mv, ml, mr, mh, t'. rewrite !inOrderTraversal_elements.
  repeat split; try done.
  apply bst_increasing in Hb. rewrite El in Hb.
  apply (increasing_mid []) in Hb as (_ & Hi & _).
  by apply bst_increasing.
Qed.

(** ** The three traversals *)

Lemma preOrder_rootFirst t acc : preOrder t acc = acc ++ rootFirst t.
Proof.
  revert acc. induction t as [|v l IHl r IHr h]; intros acc; simpl.
  - by rewrite app_nil_r.
  - rewrite IHr, IHl, <- !app_assoc. done.
Qed.

Lemma postOrder_rootLast t acc : postOrder t acc = acc ++ rootLast t.
Proof.
  revert acc. induction t as [|v l IHl r IHr h]; intros acc; simpl.
  - by rewrite app_nil_r.
  - rewrite IHr, IHl, <- !app_assoc. done.
Qed.

Lemma rootFirst_elements t : rootFirst t ≡ₚ elements t.
Proof.
  induction t as [|v l IHl r IHr h]; simpl; [done|].
  rewrite IHl, IHr. apply Permutation_middle.
Qed.

Lemma rootLast_elements t : rootLast t ≡ₚ elements t.
Proof.
  induction t as [|v l IHl r IHr h]; simpl; [done|].
  rewrite IHl, IHr. f_equiv. symmetry. apply Permutation_cons_append.
Qed.

(** X17. The pre-order and post-order traversals list the values of the in-order
    traversal in another order, one per node; pre-order starts and
    post-order ends with the value of the root. *)
Theorem traversals_agree t :
  preOrderTraversal t ≡ₚ inOrderTraversal t ∧
  postOrderTraversal t ≡ₚ inOrderTraversal t ∧
  length (inOrderTraversal t) = size t ∧
  (∀ v l r h, t = Node v l r h →
     head (preOrderTraversal t) = Some v ∧
     last (postOrderTraversal t) = Some v).
Proof.
  unfold preOrderTraversal, postOrderTraversal.
  rewrite preOrder_rootFirst, postOrder_rootLast, inOrderTraversal_elements.
  simpl. repeat split.
  - apply rootFirst_elements.
  - apply rootLast_elements.
  - symmetry. apply size_elements.
  - by subst t.
  - subst t. simpl. by rewrite app_assoc, last_snoc.
Qed.

Lemma split_unique (P : T → Prop) (xs ys xs' ys' : list T) :
  Forall P xs → Forall (λ y, ¬ P y) ys →
  Forall P xs' → Forall (λ y, ¬ P y) ys' →
  xs ++ ys = xs' ++ ys' → xs = xs' ∧ ys = ys'.
Proof.
  revert xs'. induction xs as [|x xs IH]; intros [|x' xs'] Fx Fy Fx' Fy' E;
    simpl in E.
  - done.
  - subst ys. apply Forall_cons in Fx' as [? _], Fy as [? _]. done.
  - subst ys'. apply Forall_cons in Fx as [? _], Fy' as [? _]. done.
  - injection E as <- E. apply Forall_cons in Fx as [_ Fx], Fx' as [_ Fx'].
    destruct (IH xs' Fx Fy Fx' Fy' E) as [-> ->]. done.
Qed.

(** X18. A valid tree can be read back from its pre-order traversal: two valid
    trees with the same pre-order traversal are the same tree. *)
Theorem preOrder_determines t1 t2 :
  avl t1 → bst t1 → avl t2 → bst t2 →
  preOrderTraversal t1 = preOrderTraversal t2 → t1 = t2.
Proof.
  unfold preOrderTraversal. rewrite !preOrder_rootFirst. simpl.
  revert t2. induction t1 as [|v l IHl r IHr h]; intros [|v' l' r' h']; try done.
  intros (Al & Ar & -> & _) (Bl & Br & Fl & Fr) (Al' & Ar' & -> & _)
    (Bl' & Br' & Fl' & Fr') E.
  simpl in E. injection E as <- E.
  rewrite <- rootFirst_elements in Fl, Fr, Fl', Fr'.
  assert (∀ ys, Forall (λ y, v ≺ y) ys → Forall (λ y, ¬ y ≺ v) ys) as Hneg.
  { intros ys Hys. eapply Forall_impl; [done|]. intros y Hy Hy'.
    by rewrite (less_asym _ _ Hy) in Hy'. }
  destruct (split_unique (λ y, y ≺ v) _ _ _ _ Fl (Hneg _ Fr) Fl' (Hneg _ Fr') E)
    as [El Er].
  by rewrite (IHl l' Al Bl Al' Bl' El), (IHr r' Ar Br Ar' Br' Er).
Qed.

(** ** Rotations undo each other *)

(** X19. On nodes whose cached heights are correct, [rotateLeft] after
    [rotateRight] gives back the node rotated, and so does [rotateRight]
    after [rotateLeft]. *)
Theorem rotate_inverse (xv yv : T) (a b c : tree T) :
  (let x := Node xv a b (1 + Z.max (getHeight a) (getHeight b)) in
   let y := Node yv x c (1 + Z.max (getHeight x) (getHeight c)) in
   rotateRight y ≫= rotateLeft = Some y) ∧
  (let y := Node yv b c (1 + Z.max (getHeight b) (getHeight c)) in
   let x := Node xv a y (1 + Z.max (getHeight a) (getHeight y)) in
   rotateLeft x ≫= rotateRight = Some x).
Proof. done. Qed.

(** ** Correct cached heights are all that the pointer accesses need *)

Lemma heights_ok_nonneg t : heights_ok t → 0 ≤ getHeight t.
Proof.
  induction t as [|v l IHl r IHr h]; simpl; [done|].
  intros (Hl & Hr & ->). specialize (IHl Hl). lia.
Qed.

Lemma heights_ok_positive_Node t :
  0 < getHeight t → ∃ v l r h, t = Node v l r h.
Proof.
  destruct t as [|v l r h]; simpl; [lia|]. intros _. by exists v, l, r, h.
Qed.

Lemma avl_heights_ok t : avl t → heights_ok t.
Proof.
  induction t as [|v l IHl r IHr h]; simpl; [done|].
  intros (Hl & Hr & Hh & _). auto.
Qed.

(** Cached heights that are correct are level counts, hence [int]s for
    every tree with at most [INT_MAX] nodes. *)
Lemma heights_ok_int t :
  heights_ok t → Z.of_nat (size t) ≤ INT_MAX → 0 ≤ getHeight t ≤ INT_MAX.
Proof.
  intros Ht Hn.
  assert (getHeight t = Z.of_nat (depth t)) as ->.
  { clear Hn. induction t as [|v l IHl r IHr h]; simpl; [done|].
    destruct Ht as (Hl & Hr & ->). rewrite (IHl Hl), (IHr Hr). lia. }
  pose proof (depth_le_size t). lia.
Qed.

Ltac cached :=
  repeat match goal with
  | Ht : heights_ok ?t |- _ =>
      lazymatch goal with
      | _ : 0 ≤ getHeight t |- _ => fail
      | _ => pose proof (heights_ok_nonneg t Ht)
      end
  end.

Lemma balance_heights_ok v l r h :
  heights_ok l → heights_ok r →
  ∃ t', balance (Node v l r h) = Some t' ∧ heights_ok t'.
Proof.
  intros Hl Hr.
  unfold balance. simpl. cached.
  destruct (Z.ltb_spec 1 (getHeight l - getHeight r)).
  - destruct (heights_ok_positive_Node l) as (lv & ll & lr & lh & ->);
      [lia|].
    destruct Hl as (Hll & Hlr & ->). simpl in *.
    destruct (Z.ltb_spec (getHeight ll - getHeight lr) 0).
    + cached.
      destruct (heights_ok_positive_Node lr) as (mv & ml & mr & mh & ->);
        [lia|].
      destruct Hlr as (Hml & Hmr & ->). simpl.
      eexists. split; [reflexivity|]. simpl. by repeat split.
    + eexists. split; [reflexivity|]. simpl. by repeat split.
  - destruct (Z.ltb_spec (getHeight l - getHeight r) (-1)).
    + destruct (heights_ok_positive_Node r) as (rv & rl & rr & rh & ->);
        [lia|].
      destruct Hr as (Hrl & Hrr & ->). simpl in *.
      destruct (Z.ltb_spec 0 (getHeight rl - getHeight rr)).
      * cached.
        destruct (heights_ok_positive_Node rl) as (mv & ml & mr & mh & ->);
          [lia|].
        destruct Hrl as (Hml & Hmr & ->). simpl.
        eexists. split; [reflexivity|]. simpl. by repeat split.
      * eexists. split; [reflexivity|]. simpl. by repeat split.
    + eexists. split; [reflexivity|]. simpl. by repeat split.
Qed.

(** X20. [balance] returns on every node whose subtrees have correct cached
    heights, however far out of balance it is; the result has correct
    cached heights and the same in-order traversal. *)
Theorem balance_total v l r h :
  heights_ok l → heights_ok r →
  ∃ t', balance (Node v l r h) = Some t' ∧ heights_ok t' ∧
        inOrderTraversal t' = inOrderTraversal (Node v l r h).
Proof.
  intros Hl Hr.
  destruct (balance_heights_ok v l r h Hl Hr) as (t' & E & Ht').
  exists t'. repeat split; try done.
  rewrite !inOrderTraversal_elements. by apply balance_elements.
Qed.

Lemma insert_heights_ok t x :
  heights_ok t → ∃ t', insert t x = Some t' ∧ heights_ok t'.
Proof.
  induction t as [|v l IHl r IHr h]; intros Ht.
  - by exists (newNode x).
  - destruct Ht as (Hl & Hr & ->). cbn [insert].
    destruct (less x v); [|destruct (less v x)].
    + destruct (IHl Hl) as (l' & -> & Hl'). simpl.
      destruct (balance_heights_ok v l' r (1 + Z.max (getHeight l) (getHeight r)))
        as (t' & -> & Ht'); [done..|]. by exists t'.
    + destruct (IHr Hr) as (r' & -> & Hr'). simpl.
      destruct (balance_heights_ok v l r' (1 + Z.max (getHeight l) (getHeight r)))
        as (t' & -> & Ht'); [done..|]. by exists t'.
    + eexists. split; [done|]. by repeat split.
Qed.

Lemma removeMin_heights_ok t :
  heights_ok t → t ≠ Leaf → ∃ t', removeMin t = Some t' ∧ heights_ok t'.
Proof.
  induction t as [|v l IHl r IHr h]; intros Ht Hne; [done|].
  destruct Ht as (Hl & Hr & Eh).
  destruct l as [|lv ll lr lh]; [by exists r|].
  destruct (IHl Hl) as (l' & El & Hl'); [done|].
  cbn [removeMin] in El |- *. rewrite El. simpl.
  destruct (balance_heights_ok v l' r h) as (t' & -> & Ht'); [done..|].
  by exists t'.
Qed.

Lemma remove_heights_ok t x :
  heights_ok t → ∃ t', remove t x = Some t' ∧ heights_ok t'.
Proof.
  induction t as [|v l IHl r IHr h]; intros Ht.
  - by exists Leaf.
  - destruct Ht as (Hl & Hr & Eh). cbn [remove].
    destruct (less x v); [|destruct (less v x)].
    + destruct (IHl Hl) as (l' & -> & Hl'). simpl.
      destruct (balance_heights_ok v l' r h) as (t' & -> & Ht'); [done..|].
      by exists t'.
    + destruct (IHr Hr) as (r' & -> & Hr'). simpl.
      destruct (balance_heights_ok v l r' h) as (t' & -> & Ht'); [done..|].
      by exists t'.
    + destruct r as [|rv rl rr rh]; [by exists l|].
      set (r := Node rv rl rr rh) in *.
      destruct (removeMin_heights_ok r Hr) as (r' & -> & Hr'); [done|].
      destruct (findMin_Node r) as (mv & ml & mr & mh & ->); [done|].
      cbn [mbind option_bind].
      destruct (balance_heights_ok mv l r' mh) as (t' & -> & Ht'); [done..|].
      by exists t'.
Qed.

(** X21. [insert] and [remove] return, with correct cached heights, on every
    tree whose cached heights are correct: they need neither the balance
    nor the search order of their argument to stay clear of absent nodes. *)
Theorem correct_heights_suffice t x :
  heights_ok t →
  (∃ t', insert t x = Some t' ∧ heights_ok t') ∧
  (∃ t', remove t x = Some t' ∧ heights_ok t').
Proof.
  intros Ht. split; [by apply insert_heights_ok|by apply remove_heights_ok].
Qed.

End More.

(** ** The printer *)












(** ** The further properties at concrete inputs *)

Lemma contains_traversal_witness :
  contains demo 25 = true ↔ 25 ∈ inOrderTraversal demo.
Proof. apply (contains_traversal demo 25). compute_done. Defined.

Lemma insert_contains_witness :
  ∃ t', insert demo 35 = Some t' ∧ contains t' 35 = true ∧
        ∀ y, y ≠ 35 → contains t' y = contains demo y.
Proof. apply (insert_contains demo 35); compute_done. Defined.

Lemma insert_size_witness :
  ∃ t', insert demo 35 = Some t' ∧
        if contains demo 35 then t' = demo else size t' = S (size demo).
Proof. apply (insert_size demo 35); compute_done. Defined.

Lemma remove_size_witness :
  ∃ t', remove demo 30 = Some t' ∧
        size demo = if contains demo 30 then S (size t') else size t'.
Proof. apply (remove_size demo 30); compute_done. Defined.

Lemma insert_order_irrelevant_witness :
  ∃ t t' : tree Z,
    insertAll [1; 2; 3] Leaf = Some t ∧ insertAll [3; 2; 1] Leaf = Some t' ∧
    inOrderTraversal t = inOrderTraversal t'.
Proof.
  apply (insert_order_irrelevant [1; 2; 3] [3; 2; 1]).
  symmetry. exact (reverse_Permutation [1; 2; 3]).
Defined.

Lemma insert_remove_roundtrip_witness :
  ∃ t1 t2, insert demo 35 = Some t1 ∧ remove t1 35 = Some t2 ∧
           inOrderTraversal t2 = inOrderTraversal demo.
Proof. apply (insert_remove_roundtrip demo 35); compute_done. Defined.

Lemma remove_insert_roundtrip_witness :
  ∃ t1 t2, remove demo 30 = Some t1 ∧ insert t1 30 = Some t2 ∧
           inOrderTraversal t2 = inOrderTraversal demo.
Proof. apply (remove_insert_roundtrip demo 30); compute_done. Defined.

Lemma remove_twice_witness :
  ∃ t', remove demo 30 = Some t' ∧ remove t' 30 = Some t'.
Proof. apply (remove_twice demo 30); compute_done. Defined.

Lemma height_step_witness :
  (∃ t', insert demo 35 = Some t' ∧
         getHeight demo ≤ getHeight t' ≤ getHeight demo + 1) ∧
  (∃ t', remove demo 35 = Some t' ∧
         getHeight demo - 1 ≤ getHeight t' ≤ getHeight demo).
Proof. apply (height_step demo 35). compute_done. Defined.

Lemma findMin_least_witness :
  ∃ mv mr mh, findMin demo = Node mv Leaf mr mh ∧ contains demo mv = true ∧
              ∀ y, contains demo y = true → less y mv = false.
Proof. apply (findMin_least demo); [compute_done|done]. Defined.

Lemma removeMin_first_witness :
  ∃ mv ml mr mh t',
    findMin demo = Node mv ml mr mh ∧ removeMin demo = Some t' ∧
    avl t' ∧ bst t' ∧ inOrderTraversal demo = mv :: inOrderTraversal t'.
Proof. apply (removeMin_first demo); [compute_done|compute_done|done]. Defined.

Lemma preOrder_determines_witness :
  Node 20 (Node 10 Leaf Leaf 1) (Node 30 Leaf Leaf 1) 2
  = Node 20 (Node 10 Leaf Leaf (2 - 1)) (Node 30 Leaf Leaf 1) (1 + 1).
Proof.
  apply (preOrder_determines
           (Node 20 (Node 10 Leaf Leaf 1) (Node 30 Leaf Leaf 1) 2)
           (Node 20 (Node 10 Leaf Leaf (2 - 1)) (Node 30 Leaf Leaf 1) (1 + 1)));
    [compute_done..|reflexivity].
Defined.

Lemma balance_total_witness :
  let r := Node 2 Leaf (Node 3 Leaf (Node 4 Leaf Leaf 1) 2) 3 in
  ∃ t', balance (Node 1 Leaf r 0) = Some t' ∧ heights_ok t' ∧
        inOrderTraversal t' = inOrderTraversal (Node 1 Leaf r 0).
Proof.
  apply (balance_total 1 Leaf (Node 2 Leaf (Node 3 Leaf (Node 4 Leaf Leaf 1) 2) 3) 0);
    [exact I|compute_done].
Defined.

(** Correct cached heights, but no balance: 1, 2, 3 in a chain. *)
Lemma correct_heights_suffice_witness :
  let t := Node 1 Leaf (Node 2 Leaf (Node 3 Leaf Leaf 1) 2) 3 in
  (∃ t', insert t 4 = Some t' ∧ heights_ok t') ∧
  (∃ t', remove t 4 = Some t' ∧ heights_ok t').
Proof.
  apply (correct_heights_suffice
           (Node 1 Leaf (Node 2 Leaf (Node 3 Leaf Leaf 1) 2) 3) 4).
  compute_done.
Defined.

Lemma insert_not_empty_witness :
  ∃ t', insert demo 35 = Some t' ∧ empty t' = false.
Proof. apply (insert_not_empty demo 35). compute_done. Defined.

Lemma remove_last_empties_witness : remove (newNode 7) 7 = Some Leaf.
Proof.
  apply (remove_last_empties (newNode 7) 7); [compute_done..|].
  intros y. simpl. destruct (Z.ltb_spec y 7), (Z.ltb_spec 7 y); (done || lia).
Defined.


